(** * CodeGuardian: the result cache, the retry executor and the memoizing
      decorator

    A shallow embedding of [codeguardian/utils/cache.py] and
    [codeguardian/utils/retry.py], and of the way
    [codeguardian/utils/github.py] stacks their decorators; the properties
    their specification states about them, and further properties of the
    code.

    Conventions of the model.
    - The interpreter is CPython 3.11 on a POSIX file system.  A string is
      the sequence of the bytes of its UTF-8 encoding.
    - [time.time()] and the [ttl] arithmetic are floats in the source; they
      are rationals here ([Q]), and the sum [now + ttl] and the difference
      [reset_time - now] are taken to be exact.  The product and the power
      of the backoff delay are the float operations of the platform: they
      are a parameter of the model ([floats]), which carries the laws of
      these operations that the proofs use.  The arguments of a policy are
      finite floats.
    - The cache directory is a finite map from file names to files.  It
      holds regular files only, no subdirectory, so that a name with a path
      separator, which is a path through a subdirectory, cannot be opened.
      A path that leaves the directory, by a leading separator or a first
      component [.] or [..], is resolved from another place, of which the
      model knows nothing: there it finds nothing and creates nothing, and
      names are compared as they are written.  What is said of the lookup
      or of the record of a key is said for the keys whose path stays in
      the directory.  The operations are defined on every map: a
      name that the map holds is the name of a file, which can be read,
      overwritten and unlinked, and the existence test refuses a name whose
      component is too long before it looks into the directory, as [stat]
      does.  A file is known by what [json.load] makes of its bytes
      ([Parsed j], or [Unparsable] when the decoder raises) and by its
      modification time, which is the clock reading at which it was
      written.  On a JSON document, [json.dump] followed by [json.load] is
      the identity.
    - The process may read, create and remove the files of the directory.
    - The order in which the directory is enumerated is not fixed by the
      operating system; it is a parameter ([lister]).
    - The calls of a run follow one another.  What other threads do in the
      middle of a [get], which takes no lock, is a parameter of [get_among].
      The cleanup thread is not part of the model; [cleanup] and [clear]
      are calls like the others.
    - [time.sleep] advances the clock by the length it is given, which is
      below what the platform's timer holds.
    - Logging has no effect on the results and is left out. *)

From Stdlib Require Import QArith Qminmax Qpower Lqa ZArith Lia Ascii.
From Stdlib Require Qcanon.
From stdpp Require Import gmap strings list fin_maps pretty sorting.

#[local] Set Warnings "-register-all".

(** ** Python values, exceptions and results *)

Module Py.

(** What [json.load] returns. *)
Inductive json : Type :=
| JNull
| JBool (b : bool)
| JNum (q : Q)
| JStr (s : string)
| JList (items : list json)
| JDict (items : list (string * json)).

(** [x is None] *)
Definition is_None (x : json) : bool :=
  match x with JNull => true | _ => false end.

(** The objects that a decorated function returns and that [set] is given:
    the values of JSON, tuples, and objects of other classes, known by their
    [repr].  The keys of a dict are strings. *)
Inductive value : Type :=
| VNone
| VBool (b : bool)
| VNum (q : Q)
| VStr (s : string)
| VList (items : list value)
| VTuple (items : list value)
| VDict (items : list (string * value))
| VObject (repr : string).

(** A decoded document, as the object it is. *)
Fixpoint of_json (j : json) : value :=
  match j with
  | JNull => VNone
  | JBool b => VBool b
  | JNum q => VNum q
  | JStr s => VStr s
  | JList items => VList (map of_json items)
  | JDict items => VDict (map (fun kv => (kv.1, of_json kv.2)) items)
  end.

(** All the results, when every one is there. *)
Fixpoint sequence {A} (l : list (option A)) : option (list A) :=
  match l with
  | [] => Some []
  | x :: rest =>
      match x, sequence rest with
      | Some a, Some l' => Some (a :: l')
      | _, _ => None
      end
  end.

(** The document that [json.dump] writes for an object, when it writes one:
    a tuple is written as a list, and an object of another class makes the
    encoder raise [TypeError]. *)
Fixpoint to_json (v : value) : option json :=
  match v with
  | VNone => Some JNull
  | VBool b => Some (JBool b)
  | VNum q => Some (JNum q)
  | VStr s => Some (JStr s)
  | VList items | VTuple items =>
      option_map JList (sequence (map to_json items))
  | VDict items =>
      option_map JDict
        (sequence
           (map (fun kv => option_map (pair kv.1) (to_json kv.2)) items))
  | VObject _ => None
  end.


(** The exceptions the modelled code meets.  Every one of them is a subclass
    of [Exception].  [OSError] stands for the subclasses of [OSError] other
    than [FileNotFoundError].  A header of a [GithubException] is known by
    what [int] makes of its value; the headers may be [None].
    [UserException] stands for any other class an operation raises;
    [RetryError msg cause] is [raise RetryError(msg) from cause]. *)
Inductive header : Type :=
| Int (z : Z)
| NoInt.

Inductive exn : Type :=
| FileNotFoundError (path : string)
| OSError (strerror : string)
| JSONDecodeError
| KeyError (key : string)
| TypeError
| ValueError
| AttributeError
| OverflowError
| GithubException (status : Z) (headers : option (gmap string header))
| UserException (cls : string) (msg : string)
| RetryError (msg : string) (cause : option exn).

(** A call either returns or raises. *)
Inductive outcome (A : Type) : Type :=
| Return (a : A)
| Raise (e : exn).
Arguments Return {A} a.
Arguments Raise {A} e.

Definition returned {A} (o : outcome A) : bool :=
  match o with Return _ => true | Raise _ => false end.

(** [d[k]] on a decoded JSON value: only a dict can be subscripted by a
    string, and the key has to be there. *)
Fixpoint dict_get (k : string) (items : list (string * json)) : option json :=
  match items with
  | [] => None
  | (k', v) :: rest => if String.eqb k k' then Some v else dict_get k rest
  end.

Definition subscript (x : json) (k : string) : outcome json :=
  match x with
  | JDict items =>
      match dict_get k items with
      | Some v => Return v
      | None => Raise (KeyError k)
      end
  | _ => Raise TypeError
  end.

(** [t > x] for a float [t]: [x] has to be a number ([bool] is one). *)
Definition float_gt (t : Q) (x : json) : outcome bool :=
  match x with
  | JNum q => Return (negb (Qle_bool t q))
  | JBool b => Return (negb (Qle_bool t (if b then 1 else 0)))
  | _ => Raise TypeError
  end.

(** A float that an operation on finite floats gives: a finite one, or an
    infinity when the result is out of range. *)
Inductive float : Type :=
| Finite (q : Q)
| Infinite (negative : bool).

Definition float_le (x y : float) : Prop :=
  match x, y with
  | Finite a, Finite b => (a <= b)%Q
  | Infinite true, _ => True
  | _, Infinite false => True
  | _, _ => False
  end.

(** [min(x, m)] for a finite [m]: [m] when [m < x], and [x] otherwise. *)
Definition float_min (x : float) (m : Q) : float :=
  match x with
  | Finite q => Finite (Qmin q m)
  | Infinite false => Finite m
  | Infinite true => Infinite true
  end.

(** The float arithmetic of the platform on finite floats: [fmul x y] is
    [x * y], and [fpow x n] is [x ** n] for an [int] [n >= 0], which raises
    [OverflowError] when the power is out of range.  Both round.  The laws
    are those of IEEE 754 in the rounding to nearest, and of a power that
    rounds as well as the product does: a result that is an integer of at
    most 53 bits is exact, the sign of the operands is kept, and rounding
    keeps the order; and the power raises nothing but [OverflowError]. *)
Record floats : Type := Floats {
  fmul : Q -> Q -> float;
  fpow : Q -> Z -> outcome Q;
  fmul_exact : forall a b : Z,
    (Z.abs (a * b) <= 2 ^ 53)%Z ->
    fmul (inject_Z a) (inject_Z b) = Finite (inject_Z (a * b));
  fpow_exact : forall a n : Z,
    (0 <= n)%Z -> (Z.abs (a ^ n) <= 2 ^ 53)%Z ->
    fpow (inject_Z a) n = Return (inject_Z (a ^ n));
  fmul_sign : forall x y : Q,
    (0 <= x)%Q -> (0 <= y)%Q -> float_le (Finite 0) (fmul x y);
  fmul_mono : forall x y y' : Q,
    (0 <= x)%Q -> (y <= y')%Q -> float_le (fmul x y) (fmul x y');
  fpow_sign : forall (x : Q) (n : Z) (a : Q),
    (0 <= x)%Q -> fpow x n = Return a -> (0 <= a)%Q;
  fpow_mono : forall (x : Q) (n n' : Z) (a a' : Q),
    (1 <= x)%Q -> (n <= n')%Z ->
    fpow x n = Return a -> fpow x n' = Return a' -> (a <= a')%Q;
  fpow_overflow : forall (x : Q) (n : Z) (e : exn),
    (0 <= n)%Z -> fpow x n = Raise e -> e = OverflowError
}.

End Py.
Import Py.

(** Arithmetic without rounding, on rationals in lowest terms: floats that
    never round and never overflow.  It has the laws of [floats]. *)
Definition exact_floats : floats.
Proof.
  refine (Floats (fun x y => Finite (Qred (x * y)))
                 (fun x n => Return (Qred (x ^ n))) _ _ _ _ _ _ _).
  - intros a b _. f_equal. apply Qcanon.Qred_identity. apply Z.gcd_1_r.
  - intros a n Hn _. f_equal.
    rewrite (Qred_complete _ (inject_Z (a ^ n))).
    + apply Qcanon.Qred_identity. apply Z.gcd_1_r.
    + symmetry. now apply Zpower_Qpower.
  - intros x y Hx Hy. simpl. rewrite Qred_correct.
    now apply Qmult_le_0_compat.
  - intros x y y' Hx Hy. simpl. rewrite !Qred_correct. nra.
  - intros x n a Hx [= <-]. rewrite Qred_correct. now apply Qpower_0_le.
  - intros x n n' a a' Hx Hn [= <-] [= <-]. rewrite !Qred_correct.
    now apply Qpower_le_compat_l.
  - discriminate.
Defined.

(** ** The cache directory *)

Module Fs.

Inductive body : Type :=
| Unparsable
| Parsed (j : json).

Record file : Type := File { content : body; st_mtime : Q }.

(** The files of the cache directory, by name. *)
Abbreviation Disk := (gmap string file).

(** The enumeration of a directory: every file once, in some order. *)
Record lister : Type := Lister {
  iterdir :> Disk -> list (string * file);
  iterdir_perm : forall d : Disk, iterdir d ≡ₚ map_to_list d
}.

(** The longest name of a file, in bytes. *)
Definition NAME_MAX : nat := 255.

Fixpoint has_byte (c : Ascii.ascii) (s : string) : bool :=
  match s with
  | EmptyString => false
  | String a s' => Ascii.eqb a c || has_byte c s'
  end.

(** The part of a path before its first separator. *)
Fixpoint first_component (p : string) : string :=
  match p with
  | EmptyString => EmptyString
  | String a p' =>
      if Ascii.eqb a "/"%char then EmptyString
      else String a (first_component p')
  end.

(** The first components with which a path leaves the directory: none,
    when the path begins with a separator and is absolute, [.] and [..]. *)
Definition leaves (component : string) : bool :=
  String.eqb component EmptyString || String.eqb component "."
  || String.eqb component "..".

(** What the system makes of a path [p] under the cache directory: the name
    of an entry of the directory; a path through a subdirectory, which does
    not exist; a path whose first component is longer than a name may be;
    a string with a NUL byte, which is no path; or a path that leaves the
    directory, which is resolved from another place. *)
Inductive resolved : Type :=
| Entry
| NoSuchDirectory
| NameTooLong
| NulByte
| Outside.

Definition resolve (p : string) : resolved :=
  if has_byte Ascii.zero p then NulByte
  else if NAME_MAX <? String.length (first_component p) then NameTooLong
  else if has_byte "/"%char p then
    if leaves (first_component p) then Outside else NoSuchDirectory
  else Entry.

(** What a system call on [p] raises when [p] is not the name of an entry:
    [ENOENT], [ENAMETOOLONG], or the [ValueError] of an embedded null
    byte.  The model knows the directory alone: of a path that leaves it,
    it finds nothing and creates nothing, which is one of the things that
    can happen; the properties that depend on it are stated for the paths
    that stay in the directory. *)
Definition refusal (p : string) : option exn :=
  match resolve p with
  | Entry => None
  | NoSuchDirectory => Some (FileNotFoundError p)
  | NameTooLong => Some (OSError "File name too long")
  | NulByte => Some ValueError
  | Outside => Some (OSError "Permission denied")
  end.

(** [p.exists()]: [stat], whose [ENOENT] and [ValueError] are answered by
    [False] and whose [ENAMETOOLONG] is raised: a component that is too long
    is refused before the directory is looked into. *)
Definition path_exists (p : string) (d : Disk) : outcome bool :=
  match resolve p with
  | NameTooLong => Raise (OSError "File name too long")
  | _ => Return (bool_decide (is_Some (d !! p)))
  end.

(** [open(p)] and reading it whole *)
Definition read (p : string) (d : Disk) : outcome body :=
  match d !! p with
  | Some f => Return (content f)
  | None => Raise (default (FileNotFoundError p) (refusal p))
  end.

Definition json_load (b : body) : outcome json :=
  match b with
  | Parsed j => Return j
  | Unparsable => Raise JSONDecodeError
  end.

(** [p.unlink()] *)
Definition unlink (p : string) (d : Disk) : outcome Disk :=
  match d !! p with
  | Some _ => Return (delete p d)
  | None => Raise (default (FileNotFoundError p) (refusal p))
  end.

(** [with open(p, "w") as f: ...], at time [now], the file holding [b] when
    it is closed: the file is created, or truncated when it is there. *)
Definition write (p : string) (b : body) (now : Q) (d : Disk) : outcome Disk :=
  match d !! p, refusal p with
  | None, Some e => Raise e
  | _, _ => Return (<[p := File b now]> d)
  end.

(** [s] ends with [suffix] *)
Fixpoint ends_with (suffix s : string) : bool :=
  String.eqb s suffix ||
  match s with
  | EmptyString => false
  | String _ s' => ends_with suffix s'
  end.

(** [cache_dir.glob("*.json")] *)
Definition glob_json (ls : lister) (d : Disk) : list (string * file) :=
  filter (fun nf => ends_with ".json" nf.1 = true) (ls d).

(** [sorted(files, key=lambda p: p.stat().st_mtime)]: a stable sort. *)
Fixpoint insert_by_mtime (x : string * file) (l : list (string * file))
  : list (string * file) :=
  match l with
  | [] => [x]
  | y :: l' =>
      if Qle_bool (st_mtime x.2) (st_mtime y.2) then x :: y :: l'
      else y :: insert_by_mtime x l'
  end.

Definition sorted_by_mtime (l : list (string * file)) : list (string * file) :=
  foldr insert_by_mtime [] l.

(** [x] is not younger than [y]. *)
Definition older (x y : string * file) : Prop :=
  (st_mtime x.2 <= st_mtime y.2)%Q.


End Fs.
Import Fs.

(** ** cache.py: class Cache *)

Module Cache.

Record t : Type := Make {
  ttl : Z;
  max_size : Z;
  cleanup_interval : Z
}.

(** [_get_cache_path] *)
Definition _get_cache_path (key : string) : string := key +:+ ".json".

(** [_get_cache_files] *)
Definition _get_cache_files (ls : lister) (d : Disk) : list string :=
  (sorted_by_mtime (glob_json ls d)).*1.

(** The loop of [set] that makes room: while the list taken before the loop
    holds [max_size] names or more, its head is popped and unlinked; an
    unlink that raises is caught and the loop goes on.  ([set] enters the
    loop only when [max_size > 0], so the list is never empty at a pop.) *)
Fixpoint evict (max_size : Z) (cache_files : list string) (d : Disk) : Disk :=
  match cache_files with
  | [] => d
  | oldest_file :: rest =>
      if (max_size <=? Z.of_nat (length cache_files))%Z then
        evict max_size rest
          (match unlink oldest_file d with
           | Return d' => d'
           | Raise _ => d
           end)
      else d
  end.

(** What [set] dumps into the file. *)
Definition entry (value : json) (expires_at : Q) : json :=
  JDict [("data", value); ("expires_at", JNum expires_at)].

(** What the file holds when [json.dump({"data": value, "expires_at":
    expires_at}, f)] is over: the document, or, when the encoder raises
    [TypeError] on the way, what it had written by then, which does not
    decode. *)
Definition dumped (value : value) (expires_at : Q) : body :=
  match to_json value with
  | Some j => Parsed (entry j expires_at)
  | None => Unparsable
  end.

(** [set], called when [time.time()] is [now].  What the [try] raises, the
    [open] or the encoder, is caught and logged. *)
Definition set (ls : lister) (c : t) (now : Q) (key : string) (value : value)
    (d : Disk) : Disk :=
  let d1 :=
    if (0 <? max_size c)%Z
    then evict (max_size c) (_get_cache_files ls d) d
    else d in
  let cache_path := _get_cache_path key in
  match write cache_path (dumped value (now + inject_Z (ttl c))) now d1 with
  | Return d2 => d2
  | Raise _ => d1
  end.

(** The body of the [try] of [get], on the directory [d] as it is when the
    file is opened.  [get] takes no lock: [concurrent] is what the rest of
    the process does to the directory between the read and the unlink. *)
Definition get_try (concurrent : Disk -> Disk) (now : Q) (cache_path : string)
    (d : Disk) : outcome json * Disk :=
  match read cache_path d with
  | Raise e => (Raise e, d)
  | Return f =>
  match json_load f with
  | Raise e => (Raise e, d)
  | Return entry =>
  match subscript entry "expires_at" with
  | Raise e => (Raise e, d)
  | Return expires_at =>
  match float_gt now expires_at with
  | Raise e => (Raise e, d)
  | Return true =>
      match unlink cache_path (concurrent d) with
      | Raise e => (Raise e, concurrent d)
      | Return d' => (Return JNull, d')
      end
  | Return false => (subscript entry "data", d)
  end end end end.

(** [get], called when [time.time()] is [now], while the rest of the process
    changes the directory by [concurrent1] between the existence check and
    the read, and by [concurrent2] between the read and the unlink.  The
    existence check comes before the [try]: what it raises, [get] raises.
    Every [Exception] of the [try] is caught. *)
Definition get_among (concurrent1 concurrent2 : Disk -> Disk) (now : Q)
    (key : string) (d : Disk) : outcome json * Disk :=
  let cache_path := _get_cache_path key in
  match path_exists cache_path d with
  | Raise e => (Raise e, d)
  | Return false => (Return JNull, d)
  | Return true =>
      match get_try concurrent2 now cache_path (concurrent1 d) with
      | (Return v, d') => (Return v, d')
      | (Raise _, d') => (Return JNull, d')
      end
  end.

(** [get] with nothing else running. *)
Definition get (now : Q) (key : string) (d : Disk) : outcome json * Disk :=
  get_among id id now key d.

(** One call of [set]: when it is made, and with which key and value. *)
Record call : Type := Call { at_time : Q; key : string; value : value }.

(** Calls of [set] made one after the other. *)
Definition sets (ls : lister) (c : t) (calls : list call) (d : Disk) : Disk :=
  foldl (fun d' x => set ls c (at_time x) (key x) (value x) d') d calls.

(** The file that a call of [set] writes, under its name. *)
Definition record_of (c : t) (x : call) : string * file :=
  (_get_cache_path (key x),
   File (dumped (value x) (at_time x + inject_Z (ttl c))) (at_time x)).

(** How many names the loop of [set] pops from a list of [n] names. *)
Definition popped (max_size : Z) (n : nat) : nat :=
  Z.to_nat (Z.of_nat n - max_size + 1).

(** [y] is made after [x]. *)
Definition before (x y : call) : Prop :=
  (at_time x < at_time y)%Q.

(** The body of the [try] of [cleanup] for one file, when [time.time()] is
    [now]. *)
Definition cleanup_try (now : Q) (cache_file : string) (d : Disk)
  : outcome unit * Disk :=
  match read cache_file d with
  | Raise e => (Raise e, d)
  | Return f =>
  match json_load f with
  | Raise e => (Raise e, d)
  | Return entry =>
  match subscript entry "expires_at" with
  | Raise e => (Raise e, d)
  | Return expires_at =>
  match float_gt now expires_at with
  | Raise e => (Raise e, d)
  | Return true =>
      match unlink cache_file d with
      | Raise e => (Raise e, d)
      | Return d' => (Return tt, d')
      end
  | Return false => (Return tt, d)
  end end end end.

(** One iteration of the loop of [cleanup]: the [try], and its handler,
    which unlinks the file and catches what that unlink raises. *)
Definition cleanup_file (now : Q) (cache_file : string) (d : Disk) : Disk :=
  match cleanup_try now cache_file d with
  | (Return _, d') => d'
  | (Raise _, d') =>
      match unlink cache_file d' with
      | Return d'' => d''
      | Raise _ => d'
      end
  end.

(** [cleanup], run under the lock.  The loop goes over the cache files that
    the directory holds when it starts; [now_at cache_file] is what
    [time.time()] reads when the loop is at [cache_file]. *)
Definition cleanup (ls : lister) (now_at : string -> Q) (d : Disk) : Disk :=
  foldl (fun d' nf => cleanup_file (now_at nf.1) nf.1 d') d (glob_json ls d).

(** [clear], run under the lock. *)
Definition clear (ls : lister) (d : Disk) : Disk :=
  foldl (fun d' nf =>
           match unlink nf.1 d' with
           | Return d'' => d''
           | Raise _ => d'
           end)
        d (glob_json ls d).

(** The file decodes to an entry whose [expires_at] is a number that the
    clock reading [now] has not passed. *)
Definition live (now : Q) (f : file) : bool :=
  match json_load (content f) with
  | Raise _ => false
  | Return entry =>
      match subscript entry "expires_at" with
      | Raise _ => false
      | Return expires_at =>
          match float_gt now expires_at with
          | Return false => true
          | _ => false
          end
      end
  end.

End Cache.

(** ** retry.py: retry_with_backoff *)

Module Retry.

(** What an execution of the wrapper does that can be seen from outside. *)
Inductive event : Type :=
| Invoked
| Slept (seconds : Q).

Record world : Type := World { clock : Q; trace : list event }.

(** The arguments of [retry_with_backoff]; [exceptions e] is
    [isinstance(e, exceptions)]. *)
Record policy : Type := Policy {
  max_retries : Z;
  base_delay : Q;
  max_delay : Q;
  exponential_base : Q;
  exceptions : exn -> bool
}.

(** The decorated function: its name, and what its [n]-th invocation (from
    0) does when it starts at time [t]: an outcome, and the time at which it
    is over. *)
Record func (A : Type) : Type := Func {
  __name__ : string;
  behaviour : nat -> Q -> outcome A * Q
}.
Arguments Func {A} _ _.
Arguments __name__ {A} _.
Arguments behaviour {A} _ _ _.

(** How many times the function was invoked along a trace. *)
Fixpoint invocations (tr : list event) : nat :=
  match tr with
  | [] => 0
  | Invoked :: rest => S (invocations rest)
  | Slept _ :: rest => invocations rest
  end.

(** The call of the decorated function. *)
Definition invoke {A} (f : func A) (w : world) : outcome A * world :=
  let '(r, t) := behaviour f (invocations (trace w)) (clock w) in
  (r, World t (trace w ++ [Invoked])).

(** [time.sleep(seconds)]: a negative length makes it raise [ValueError],
    and an infinite one [OverflowError]. *)
Definition sleep (seconds : float) (w : world) : outcome world :=
  match seconds with
  | Finite s =>
      if Qle_bool 0 s
      then Return (World (clock w + s) (trace w ++ [Slept s]))
      else Raise ValueError
  | Infinite true => Raise ValueError
  | Infinite false => Raise OverflowError
  end.

(** The rate-limit test of the handler, for an exception [e] that it has
    caught: when [e] is a [GithubException] with status 403,
    [int(e.headers.get("X-RateLimit-Reset", 0))] is computed, which raises
    [AttributeError] when the headers are [None] and [ValueError] when the
    value is no integer; the reset time is what it gives, unless that
    is 0. *)
Definition rate_limit_reset (e : exn) : outcome (option Z) :=
  match e with
  | GithubException status headers =>
      if (status =? 403)%Z then
        match headers with
        | None => Raise AttributeError
        | Some headers =>
            match default (Int 0) (headers !! "X-RateLimit-Reset") with
            | Int reset_time =>
                Return (if (reset_time =? 0)%Z then None else Some reset_time)
            | NoInt => Raise ValueError
            end
        end
      else Return None
  | _ => Return None
  end.

(** [f"Max retries ({max_retries}) exceeded for {func.__name__}"] *)
Definition exceeded {A} (p : policy) (f : func A) : string :=
  "Max retries (" +:+ pretty (max_retries p) +:+ ") exceeded for "
    +:+ __name__ f.

(** [min(base_delay * (exponential_base**attempt), max_delay)], in the
    floats [fl] *)
Definition backoff_delay (fl : floats) (p : policy) (attempt : Z)
  : outcome float :=
  match fpow fl (exponential_base p) attempt with
  | Raise e => Raise e
  | Return power =>
      Return (float_min (fmul fl (base_delay p) power) (max_delay p))
  end.

(** The [for attempt in ...] loop over the attempts that are left, and the
    [raise] that follows it.  What the handler itself raises leaves the
    loop and the wrapper. *)
Fixpoint loop {A} (fl : floats) (p : policy) (f : func A) (attempts : list Z)
    (last_exception : option exn) (w : world) : outcome A * world :=
  match attempts with
  | [] => (Raise (RetryError (exceeded p f) last_exception), w)
  | attempt :: rest =>
      match invoke f w with
      | (Return a, w1) => (Return a, w1)
      | (Raise e, w1) =>
          if negb (exceptions p e) then (Raise e, w1)
          else
            match rate_limit_reset e with
            | Raise e' => (Raise e', w1)
            | Return (Some reset_time) =>
                let wait_time := Qmax (inject_Z reset_time - clock w1) 0 in
                match sleep (Finite wait_time) w1 with
                | Raise e' => (Raise e', w1)
                | Return w2 => loop fl p f rest (Some e) w2
                end
            | Return None =>
                if (attempt <? max_retries p)%Z then
                  match backoff_delay fl p attempt with
                  | Raise e' => (Raise e', w1)
                  | Return delay =>
                      match sleep delay w1 with
                      | Raise e' => (Raise e', w1)
                      | Return w2 => loop fl p f rest (Some e) w2
                      end
                  end
                else (Raise (RetryError (exceeded p f) (Some e)), w1)
            end
      end
  end.

(** [wrapper], called when [time.time()] is [now]. *)
Definition wrapper {A} (fl : floats) (p : policy) (f : func A) (now : Q)
  : outcome A * world :=
  loop fl p f (seqZ 0 (max_retries p + 1)) None (World now []).

(** The [n]-th invocation of [f] raises a failure that the policy retries
    and that carries no rate-limit reset. *)
Definition plain_failure {A} (p : policy) (f : func A) (n : nat) : Prop :=
  forall t : Q, exists e : exn,
    (behaviour f n t).1 = Raise e /\ exceptions p e = true
    /\ rate_limit_reset e = Return None.


(** The backoff delay of the attempt is a length that [time.sleep]
    accepts. *)
Definition sleepable (fl : floats) (p : policy) (attempt : Z) : Prop :=
  exists delay : Q,
    backoff_delay fl p attempt = Return (Finite delay) /\ (0 <= delay)%Q.

(** The lengths of the sleeps of a trace, in order. *)
Definition sleeps (tr : list event) : list Q :=
  omap (fun ev => match ev with Slept s => Some s | Invoked => None end) tr.

(** A function whose every invocation raises [e] and takes no time. *)
Definition always_raises {A} (name : string) (e : exn) : func A :=
  Func name (fun _ t => (Raise e, t)).


End Retry.

(** ** cache.py: the decorator cached *)

Module Memo.

(** [str(x)] *)
Class Str (A : Type) : Type := str : A -> string.

(** Arguments of the scalar types. *)
Inductive pyval : Type :=
| PyNone
| PyBool (b : bool)
| PyInt (z : Z)
| PyStr (s : string).

#[global] Instance pyval_str : Str pyval := fun x =>
  match x with
  | PyNone => "None"
  | PyBool true => "True"
  | PyBool false => "False"
  | PyInt z => pretty z
  | PyStr s => s
  end.

(** [sorted(kwargs.items())]: the names of a dict are distinct, so the
    pairs are ordered by name alone. *)
Fixpoint insert_by_name {A} (x : string * A) (l : list (string * A))
  : list (string * A) :=
  match l with
  | [] => [x]
  | y :: l' =>
      if String.leb x.1 y.1 then x :: y :: l'
      else y :: insert_by_name x l'
  end.

Definition sorted_items {A} (kwargs : list (string * A)) : list (string * A) :=
  foldr insert_by_name [] kwargs.


Record world : Type := World {
  disk : Disk;
  clock : Q;
  call_count : nat
}.

(** The decorated function: its name and what a call does. *)
Record func (A : Type) : Type := Func {
  __name__ : string;
  call : list A -> list (string * A) -> world -> outcome value * world
}.
Arguments Func {A} _ _.
Arguments __name__ {A} _.
Arguments call {A} _ _ _ _.

(** The key of a call. *)
Definition make_key {A} `{Str A} (name : string) (args : list A)
    (kwargs : list (string * A)) : string :=
  let key_parts :=
    [name] ++ (str <$> args)
           ++ ((fun kv => kv.1 +:+ ":" +:+ str kv.2) <$> sorted_items kwargs) in
  String.concat "_" key_parts.

(** [wrapper] of [cached(cache)(func)].  A hit returns the decoded
    payload. *)
Definition wrapper {A} `{Str A} (ls : lister) (cache : Cache.t) (f : func A)
    (args : list A) (kwargs : list (string * A)) (w : world)
  : outcome value * world :=
  let key := make_key (__name__ f) args kwargs in
  match Cache.get (clock w) key (disk w) with
  | (Raise e, d1) => (Raise e, World d1 (clock w) (call_count w))
  | (Return result, d1) =>
      if negb (is_None result)
      then (Return (of_json result), World d1 (clock w) (call_count w))
      else
        match call f args kwargs (World d1 (clock w) (call_count w)) with
        | (Raise e, w2) => (Raise e, w2)
        | (Return result, w2) =>
            (Return result,
             World (Cache.set ls cache (clock w2) key result (disk w2))
                   (clock w2) (call_count w2))
        end
  end.

(** A pure function [g] of its arguments, as a decorated function that
    counts its calls (the [call_count] of a mock) and takes [elapsed]
    seconds. *)
Definition pure {A} (name : string)
    (g : list A -> list (string * A) -> value) (elapsed : Q) : func A :=
  Func name (fun args kwargs w =>
    (Return (g args kwargs),
     World (disk w) (clock w + elapsed) (S (call_count w)))).

(** A function that raises [e] whatever its arguments. *)
Definition failing {A} (name : string) (e : exn) : func A :=
  Func name (fun _ _ w =>
    (Raise e, World (disk w) (clock w) (S (call_count w)))).

End Memo.

(** ** github.py: the functions that are cached and retried *)

Module Github.

(** [isinstance(e, GithubException)], the [exceptions] of the three
    decorated functions. *)
Definition is_GithubException (e : exn) : bool :=
  match e with GithubException _ _ => true | _ => false end.

(** [retry_with_backoff(max_retries=3, base_delay=1.0, max_delay=30.0,
    exceptions=(GithubException,))]; [exponential_base] has its default. *)
Definition policy : Retry.policy := Retry.Policy 3 1 30 2 is_GithubException.

(** [retry_with_backoff(...)(track_performance(logger)(func))] as the function
    that [cached] decorates.  [body args kwargs n t] is what the [n]-th
    invocation of [func] on these arguments does when it starts at time [t];
    its calls of the GitHub API leave the cache directory alone.
    [track_performance] logs and hands on what [func] returns or raises, and
    both decorators keep [func.__name__]. *)
Definition retried {A} (fl : floats) (p : Retry.policy) (name : string)
    (body : list A -> list (string * A) -> nat -> Q -> outcome value * Q)
  : Memo.func A :=
  Memo.Func name (fun args kwargs w =>
    let r := Retry.wrapper fl p (Retry.Func name (body args kwargs))
               (Memo.clock w) in
    (r.1,
     Memo.World (Memo.disk w) (Retry.clock r.2)
       (Memo.call_count w + Retry.invocations (Retry.trace r.2)))).

(** A call of [get_changed_files] or of [get_file_content]: the function
    [name], decorated as they are, on the positional arguments [args]. *)
Definition fetch {A} `{Memo.Str A} (fl : floats) (ls : lister)
    (cache : Cache.t) (name : string)
    (body : list A -> list (string * A) -> nat -> Q -> outcome value * Q)
    (args : list A) (w : Memo.world) : outcome value * Memo.world :=
  Memo.wrapper ls cache (retried fl policy name body) args [] w.

(** The arguments of the decorated functions: the client, the [pr_context]
    that [get_pr_context] builds, and the path of a file. *)
Inductive arg : Type :=
| Client (shown : string)
| PrContext (repository : string) (number : Z) (base head : string)
| FilePath (file_path : string).

(** [str] of an argument.  A dict is shown with the [repr] of its keys and
    of its values, in the order of insertion; the strings of a [pr_context]
    are taken to hold no quote, backslash or control character, so that
    [repr] shows them as they are, between single quotes.  The client is
    shown as the caller says: an object has the [repr] of its class. *)
#[global] Instance arg_str : Memo.Str arg := fun x =>
  match x with
  | Client shown => shown
  | PrContext repository number base head =>
      "{'repository': '" +:+ repository +:+ "', 'number': " +:+ pretty number
        +:+ ", 'base': '" +:+ base +:+ "', 'head': '" +:+ head +:+ "'}"
  | FilePath file_path => file_path
  end.

End Github.

(** The enumeration that lists a directory in the order of its map. *)
Definition in_map_order : lister :=
  Lister map_to_list (fun d => Permutation_refl (map_to_list d)).

(** * Properties *)

(** ** Strings and rationals *)

Lemma append_cons (a : Ascii.ascii) (s t : string) :
  String a s +:+ t = String a (s +:+ t).
Proof. reflexivity. Qed.

Lemma length_append (s t : string) :
  String.length (s +:+ t) = String.length s + String.length t.
Proof.
  induction s as [|a s IH]; [reflexivity|].
  rewrite append_cons. simpl. now rewrite IH.
Qed.

Lemma append_inj_r (s1 s2 t : string) : s1 +:+ t = s2 +:+ t -> s1 = s2.
Proof.
  revert s2. induction s1 as [|a s1 IH]; intros [|b s2] E.
  - reflexivity.
  - apply (f_equal String.length) in E.
    rewrite !length_append in E. simpl in E. lia.
  - apply (f_equal String.length) in E.
    rewrite !length_append in E. simpl in E. lia.
  - rewrite !append_cons in E. injection E as -> E. f_equal. now apply IH.
Qed.

Lemma _get_cache_path_inj (k1 k2 : string) :
  Cache._get_cache_path k1 = Cache._get_cache_path k2 -> k1 = k2.
Proof. apply append_inj_r. Qed.

Lemma ends_with_append (s suffix : string) :
  ends_with suffix (s +:+ suffix) = true.
Proof.
  induction s as [|a s IH].
  - change (EmptyString +:+ suffix) with suffix.
    destruct suffix; cbn [ends_with]; rewrite String.eqb_refl; reflexivity.
  - rewrite append_cons. cbn [ends_with]. rewrite IH. apply orb_true_r.
Qed.

Lemma cache_path_is_json (key : string) :
  ends_with ".json" (Cache._get_cache_path key) = true.
Proof. apply ends_with_append. Qed.

Lemma Qle_bool_false (x y : Q) : Qle_bool x y = false <-> (y < x)%Q.
Proof.
  split; intros H.
  - apply Qnot_le_lt. intros Hle. apply Qle_bool_iff in Hle. congruence.
  - destruct (Qle_bool x y) eqn:E; [|reflexivity].
    apply Qle_bool_iff in E. exfalso. revert E. now apply Qlt_not_le.
Qed.

(** ** Names *)

Lemma has_byte_append (c : Ascii.ascii) (s t : string) :
  has_byte c (s +:+ t) = has_byte c s || has_byte c t.
Proof.
  induction s as [|a s IH]; [reflexivity|].
  rewrite append_cons. cbn [has_byte]. rewrite IH. apply orb_assoc.
Qed.

Lemma first_component_whole (p : string) :
  has_byte "/" p = false -> first_component p = p.
Proof.
  induction p as [|a p IH]; [reflexivity|]. cbn [has_byte first_component].
  destruct (Ascii.eqb a "/"); [discriminate|]. simpl. intros H. now rewrite IH.
Qed.

(** The names of the entries of a directory: no NUL byte, no separator, and
    at most [NAME_MAX] bytes. *)
Lemma resolve_entry (p : string) :
  resolve p = Entry <->
  has_byte Ascii.zero p = false /\ has_byte "/" p = false
  /\ String.length p <= NAME_MAX.
Proof.
  unfold resolve. destruct (has_byte Ascii.zero p).
  { split; [discriminate|]. intros [? _]. discriminate. }
  destruct (has_byte "/" p) eqn:Hsep.
  { destruct (_ <? _); [|destruct (leaves (first_component p))];
      (split; [discriminate|]); intros (_ & ? & _); discriminate. }
  rewrite (first_component_whole p Hsep).
  destruct (Nat.ltb_spec NAME_MAX (String.length p)).
  - split; [discriminate|]. intros (_ & _ & ?). lia.
  - split; [|reflexivity]. intros _. repeat split. lia.
Qed.

(** The file of a key whose file name is an entry name: the key has no NUL
    byte and no separator and, with the five bytes of [.json], at most
    [NAME_MAX] bytes. *)
Lemma resolve_cache_path (key : string) :
  resolve (Cache._get_cache_path key) = Entry <->
  has_byte Ascii.zero key = false /\ has_byte "/" key = false
  /\ String.length key + 5 <= NAME_MAX.
Proof.
  rewrite resolve_entry. unfold Cache._get_cache_path.
  rewrite !has_byte_append, length_append, !orb_false_r. reflexivity.
Qed.

Lemma refusal_entry (p : string) : resolve p = Entry -> refusal p = None.
Proof. unfold refusal. now intros ->. Qed.

Lemma refusal_not_entry (p : string) :
  resolve p <> Entry -> exists e : exn, refusal p = Some e.
Proof. unfold refusal. destruct (resolve p); [congruence|eauto..]. Qed.

(** ** Reading and writing a record *)

(** An unlink whose exception is swallowed removes the name. *)
Lemma unlink_or_keep (p : string) (d : Disk) :
  match unlink p d with Return d' => d' | Raise _ => d end = delete p d.
Proof.
  unfold unlink. destruct (d !! p) eqn:E; [reflexivity|].
  symmetry. now apply delete_id.
Qed.

Lemma write_entry (p : string) (b : body) (now : Q) (d : Disk) :
  resolve p = Entry -> write p b now d = Return (<[p := File b now]> d).
Proof.
  intros H. unfold write. rewrite (refusal_entry p H). now destruct (d !! p).
Qed.

Lemma write_refused (p : string) (b : body) (now : Q) (d : Disk) :
  d !! p = None -> resolve p <> Entry ->
  exists e : exn, write p b now d = Raise e.
Proof.
  intros Hd H. destruct (refusal_not_entry p H) as [e He].
  exists e. unfold write. now rewrite Hd, He.
Qed.

(** A write whose exception is swallowed changes the file of its name
    alone. *)
Lemma write_or_keep_other (p q : string) (b : body) (now : Q) (d : Disk) :
  q <> p ->
  match write p b now d with Return d' => d' | Raise _ => d end !! q = d !! q.
Proof.
  intros Hne. unfold write.
  destruct (d !! p), (refusal p); try reflexivity;
    now apply lookup_insert_ne.
Qed.

(** [get] on a record that [set] wrote. *)
Lemma exists_present (p : string) (d : Disk) (f : file) :
  resolve p <> NameTooLong -> d !! p = Some f -> path_exists p d = Return true.
Proof.
  intros Hn Hd. unfold path_exists. rewrite Hd. now destruct (resolve p).
Qed.

Lemma exists_absent (p : string) (d : Disk) :
  resolve p <> NameTooLong -> d !! p = None -> path_exists p d = Return false.
Proof.
  intros Hn Hd. unfold path_exists. rewrite Hd. now destruct (resolve p).
Qed.

Lemma exists_too_long (p : string) (d : Disk) :
  resolve p = NameTooLong ->
  path_exists p d = Raise (OSError "File name too long").
Proof. intros Hn. unfold path_exists. now rewrite Hn. Qed.

Lemma get_entry (now : Q) (key : string) (d : Disk) (v : json) (exp mt : Q) :
  resolve (Cache._get_cache_path key) <> NameTooLong ->
  d !! Cache._get_cache_path key
    = Some (File (Parsed (Cache.entry v exp)) mt) ->
  Cache.get now key d =
    if Qle_bool now exp then (Return v, d)
    else (Return JNull, delete (Cache._get_cache_path key) d).
Proof.
  intros Hn Hd. unfold Cache.get, Cache.get_among, id.
  rewrite (exists_present _ _ _ Hn Hd).
  unfold Cache.get_try, read, unlink. rewrite Hd. simpl.
  destruct (Qle_bool now exp); reflexivity.
Qed.

Lemma lookup_set_same (ls : lister) (c : Cache.t) (now : Q) (key : string)
    (v : value) (d : Disk) :
  resolve (Cache._get_cache_path key) = Entry ->
  Cache.set ls c now key v d !! Cache._get_cache_path key =
    Some (File (Cache.dumped v (now + inject_Z (Cache.ttl c))) now).
Proof.
  intros H. unfold Cache.set. rewrite write_entry by exact H.
  apply lookup_insert_eq.
Qed.

Lemma dumped_json (v : value) (j : json) (exp : Q) :
  to_json v = Some j -> Cache.dumped v exp = Parsed (Cache.entry j exp).
Proof. unfold Cache.dumped. now intros ->. Qed.


(** ** Objects and documents *)



(** What [json.dump] writes is never [None] for an object that is not. *)
Lemma to_json_not_None (v : value) (j : json) :
  to_json v = Some j -> v <> VNone -> j <> JNull.
Proof.
  intros Hj Hv ->. apply Hv. destruct v; simpl in Hj; try discriminate;
    try reflexivity; now destruct (sequence _).
Qed.

(** ** C1: a value is answered until it expires *)




(** ** C10: what [get] answers, and when it raises *)





(** ** The cache files, oldest first *)

Lemma elem_of_glob_json (ls : lister) (d : Disk) (n : string) (f : file) :
  (n, f) ∈ glob_json ls d <-> d !! n = Some f /\ ends_with ".json" n = true.
Proof.
  unfold glob_json. rewrite list_elem_of_filter, (iterdir_perm ls d).
  rewrite elem_of_map_to_list. simpl. tauto.
Qed.

Lemma NoDup_glob_json (ls : lister) (d : Disk) : NoDup (glob_json ls d).*1.
Proof.
  unfold glob_json.
  apply (sublist_NoDup _ ((ls d).*1)).
  - rewrite (iterdir_perm ls d). apply NoDup_fst_map_to_list.
  - apply fmap_sublist, sublist_filter.
Qed.

Lemma insert_by_mtime_perm (x : string * file) (l : list (string * file)) :
  insert_by_mtime x l ≡ₚ x :: l.
Proof.
  induction l as [|y l IH]; simpl; [reflexivity|].
  destruct (Qle_bool _ _); [reflexivity|].
  rewrite IH. apply Permutation_swap.
Qed.

Lemma sorted_by_mtime_perm (l : list (string * file)) : sorted_by_mtime l ≡ₚ l.
Proof.
  induction l as [|x l IH]; simpl; [reflexivity|].
  now rewrite insert_by_mtime_perm, IH.
Qed.

Lemma insert_by_mtime_sorted (x : string * file) (l : list (string * file)) :
  StronglySorted older l -> StronglySorted older (insert_by_mtime x l).
Proof.
  induction 1 as [|y l Hl IH Hy]; simpl.
  - repeat constructor.
  - destruct (Qle_bool (st_mtime x.2) (st_mtime y.2)) eqn:E.
    + apply Qle_bool_iff in E. constructor; [now constructor|].
      constructor; [exact E|].
      eapply Forall_impl; [exact Hy|]. intros z Hz. unfold older in *.
      now apply Qle_trans with (st_mtime y.2).
    + apply Qle_bool_false in E. constructor; [exact IH|].
      rewrite insert_by_mtime_perm. constructor; [|exact Hy].
      now apply Qlt_le_weak.
Qed.

Lemma sorted_by_mtime_sorted (l : list (string * file)) :
  StronglySorted older (sorted_by_mtime l).
Proof.
  induction l as [|x l IH]; simpl; [constructor|].
  now apply insert_by_mtime_sorted.
Qed.

Lemma elem_of_get_cache_files (ls : lister) (d : Disk) (n : string) :
  n ∈ Cache._get_cache_files ls d <->
  is_Some (d !! n) /\ ends_with ".json" n = true.
Proof.
  unfold Cache._get_cache_files. rewrite sorted_by_mtime_perm.
  rewrite list_elem_of_fmap. split.
  - intros [[n' f] [-> H]]. apply elem_of_glob_json in H as [H1 H2]. eauto.
  - intros [[f Hf] H]. exists (n, f). split; [reflexivity|].
    now apply elem_of_glob_json.
Qed.

Lemma NoDup_get_cache_files (ls : lister) (d : Disk) :
  NoDup (Cache._get_cache_files ls d).
Proof.
  unfold Cache._get_cache_files. rewrite sorted_by_mtime_perm.
  apply NoDup_glob_json.
Qed.

(** ** Making room *)

Lemma evict_lookup (max_size : Z) (files : list string) (d : Disk)
    (p : string) :
  (0 < max_size)%Z ->
  Cache.evict max_size files d !! p =
    if decide (p ∈ take (Cache.popped max_size (length files)) files)
    then None else d !! p.
Proof.
  intros Hpos. revert d. induction files as [|q files IH]; intros d.
  - cbn [Cache.evict]. rewrite take_nil. rewrite decide_False; [reflexivity|].
    apply not_elem_of_nil.
  - cbn [Cache.evict]. rewrite unlink_or_keep.
    destruct (Z.leb_spec max_size (Z.of_nat (length (q :: files)))) as [E|E].
    + rewrite IH.
      assert (Cache.popped max_size (length (q :: files))
              = S (Cache.popped max_size (length files))) as ->
        by (unfold Cache.popped; cbn [length] in *; lia).
      cbn [take]. destruct (decide (p = q)) as [->|Hne].
      * rewrite lookup_delete_eq, (decide_True (P := q ∈ q :: _)) by left.
        now destruct (decide _).
      * rewrite lookup_delete_ne by congruence.
        destruct (decide (p ∈ take _ files)) as [Hin|Hin].
        -- rewrite decide_True by now right. reflexivity.
        -- rewrite decide_False; [reflexivity|].
           intros [?|?]%elem_of_cons; contradiction.
    + assert (Cache.popped max_size (length (q :: files)) = 0) as ->
        by (unfold Cache.popped; cbn [length] in *; lia).
      cbn [take]. rewrite decide_False; [reflexivity|]. apply not_elem_of_nil.
Qed.

Lemma evict_keeps_few (max_size : Z) (n : nat) :
  (0 < max_size)%Z -> (Z.of_nat (n - Cache.popped max_size n) < max_size)%Z.
Proof. unfold Cache.popped. lia. Qed.

(** The files of the other names after a [set]. *)
Lemma set_lookup_other (ls : lister) (c : Cache.t) (now : Q) (k : string)
    (v : value) (d : Disk) (p : string) :
  p <> Cache._get_cache_path k ->
  Cache.set ls c now k v d !! p =
    if (0 <? Cache.max_size c)%Z then
      if decide (p ∈ take (Cache.popped (Cache.max_size c)
                             (length (Cache._get_cache_files ls d)))
                        (Cache._get_cache_files ls d))
      then None else d !! p
    else d !! p.
Proof.
  intros Hne. unfold Cache.set. rewrite write_or_keep_other by exact Hne.
  destruct (Z.ltb_spec 0 (Cache.max_size c)); [|reflexivity].
  now apply evict_lookup.
Qed.

(** The bound of the store. *)
Lemma set_bound (ls : lister) (c : Cache.t) (now : Q) (k : string) (v : value)
    (d : Disk) :
  (0 < Cache.max_size c)%Z ->
  (Z.of_nat (length (Cache._get_cache_files ls (Cache.set ls c now k v d)))
     <= Cache.max_size c)%Z.
Proof.
  intros Hpos. set (files := Cache._get_cache_files ls d).
  set (n := Cache.popped (Cache.max_size c) (length files)).
  assert (Cache._get_cache_files ls (Cache.set ls c now k v d)
            ⊆+ Cache._get_cache_path k :: drop n files) as Hsub.
  { apply NoDup_submseteq; [apply NoDup_get_cache_files|].
    intros p [[f Hf] Hp]%elem_of_get_cache_files.
    destruct (decide (p = Cache._get_cache_path k)) as [->|Hne]; [left|right].
    rewrite set_lookup_other in Hf by assumption.
    apply Z.ltb_lt in Hpos. rewrite Hpos in Hf. apply Z.ltb_lt in Hpos.
    fold files n in Hf.
    case_decide as Hin; [discriminate|].
    assert (p ∈ files) as Hp'.
    { apply elem_of_get_cache_files. eauto. }
    rewrite <- (take_drop n files) in Hp'.
    apply elem_of_app in Hp' as [?|?]; [contradiction|assumption]. }
  apply submseteq_length in Hsub. simpl in Hsub. rewrite length_drop in Hsub.
  pose proof (evict_keeps_few (Cache.max_size c) (length files) Hpos).
  fold n in H. lia.
Qed.

(** A file that a [set] removes is one that its loop popped. *)
Lemma set_removed (ls : lister) (c : Cache.t) (now : Q) (k : string)
    (v : value) (d : Disk) (p : string) (f : file) :
  d !! p = Some f -> Cache.set ls c now k v d !! p = None ->
  (0 < Cache.max_size c)%Z
  /\ p ∈ take (Cache.popped (Cache.max_size c)
                 (length (Cache._get_cache_files ls d)))
              (Cache._get_cache_files ls d).
Proof.
  intros Hp Hgone.
  set (d1 := if (0 <? Cache.max_size c)%Z
             then Cache.evict (Cache.max_size c)
                    (Cache._get_cache_files ls d) d
             else d).
  assert (d1 !! p = None) as Hd1.
  { unfold Cache.set in Hgone. fold d1 in Hgone.
    destruct (decide (p = Cache._get_cache_path k)) as [->|Hne].
    - unfold write in Hgone.
      destruct (d1 !! Cache._get_cache_path k) as [g|]; [|reflexivity].
      simpl in Hgone. now rewrite lookup_insert_eq in Hgone.
    - now rewrite write_or_keep_other in Hgone by exact Hne. }
  unfold d1 in Hd1. destruct (Z.ltb_spec 0 (Cache.max_size c)) as [Hpos|_].
  - split; [exact Hpos|]. rewrite evict_lookup in Hd1 by assumption.
    destruct (decide _) as [Hin|_]; [exact Hin|congruence].
  - congruence.
Qed.

(** What [set] removes is not younger than what it keeps. *)
Lemma set_evicts_oldest (ls : lister) (c : Cache.t) (now : Q) (k : string)
    (v : value) (d : Disk) (p q : string) (f g : file) :
  d !! p = Some f -> ends_with ".json" p = true ->
  Cache.set ls c now k v d !! p = None ->
  q <> Cache._get_cache_path k -> ends_with ".json" q = true ->
  Cache.set ls c now k v d !! q = Some g ->
  (st_mtime f <= st_mtime g)%Q.
Proof.
  intros Hp Hpj Hgone Hqk Hqj Hkept.
  destruct (set_removed ls c now k v d p f Hp Hgone) as [Hpos Hin].
  rewrite set_lookup_other in Hkept by assumption.
  apply Z.ltb_lt in Hpos as Hb. rewrite Hb in Hkept. clear Hb.
  set (S := sorted_by_mtime (glob_json ls d)) in *.
  unfold Cache._get_cache_files in Hin, Hkept. fold S in Hin, Hkept.
  set (n := Cache.popped (Cache.max_size c) (length S.*1)) in *.
  destruct (decide (q ∈ take n S.*1)) as [|Hout]; [discriminate|].
  rewrite <- fmap_take in Hin, Hout.
  apply list_elem_of_fmap in Hin as ([p' f'] & -> & Hin). simpl in *.
  assert ((p', f') ∈ S) as HinS.
  { rewrite <- (take_drop n S). apply elem_of_app. now left. }
  unfold S in HinS. rewrite sorted_by_mtime_perm in HinS.
  apply elem_of_glob_json in HinS as [HinS _].
  assert (f' = f) as -> by congruence.
  assert ((q, g) ∈ drop n S) as Hq.
  { assert ((q, g) ∈ S) as HqS.
    { unfold S. rewrite sorted_by_mtime_perm. now apply elem_of_glob_json. }
    rewrite <- (take_drop n S) in HqS.
    apply elem_of_app in HqS as [HqS|HqS]; [|assumption].
    exfalso. apply Hout. apply list_elem_of_fmap. now exists (q, g). }
  pose proof (sorted_by_mtime_sorted (glob_json ls d)) as Hsorted.
  fold S in Hsorted. rewrite <- (take_drop n S) in Hsorted.
  exact (StronglySorted_app_1_elem_of _ _ _ _ _ Hsorted Hin Hq).
Qed.

(** ** Calls of [set] in a row *)

Lemma before_same_time (calls : list Cache.call) (x y : Cache.call) :
  StronglySorted Cache.before calls -> x ∈ calls -> y ∈ calls ->
  (Cache.at_time x <= Cache.at_time y)%Q ->
  (Cache.at_time y <= Cache.at_time x)%Q -> x = y.
Proof.
  induction 1 as [|z calls Hs IH Hz]; intros Hx Hy Hxy Hyx.
  - now apply elem_of_nil in Hx.
  - rewrite Forall_forall in Hz. unfold Cache.before in Hz.
    apply elem_of_cons in Hx as [->|Hx], Hy as [->|Hy].
    + reflexivity.
    + specialize (Hz _ Hy). lra.
    + specialize (Hz _ Hx). lra.
    + now apply IH.
Qed.

Lemma record_names (c : Cache.t) (calls : list Cache.call) :
  (Cache.record_of c <$> calls).*1
  = Cache._get_cache_path <$> (Cache.key <$> calls).
Proof. rewrite <- !list_fmap_compose. reflexivity. Qed.

Lemma NoDup_record_names (c : Cache.t) (calls : list Cache.call) :
  NoDup (Cache.key <$> calls) -> NoDup (Cache.record_of c <$> calls).*1.
Proof.
  intros H. rewrite record_names. apply NoDup_fmap_2_strong; [|exact H].
  intros x y _ _. apply _get_cache_path_inj.
Qed.

(** The cache files of a directory that holds what distinct calls at
    increasing times wrote: their names, in the order of the calls. *)
Lemma get_cache_files_written (ls : lister) (c : Cache.t)
    (calls : list Cache.call) :
  NoDup (Cache.key <$> calls) -> StronglySorted Cache.before calls ->
  Cache._get_cache_files ls (list_to_map (Cache.record_of c <$> calls))
  = (Cache.record_of c <$> calls).*1.
Proof.
  intros Hnd Hs. unfold Cache._get_cache_files. f_equal.
  assert (glob_json ls (list_to_map (Cache.record_of c <$> calls))
          ≡ₚ Cache.record_of c <$> calls) as Hperm.
  { unfold glob_json. rewrite (iterdir_perm ls).
    rewrite map_to_list_to_map by now apply NoDup_record_names.
    clear. induction calls as [|x calls IH]; [reflexivity|].
    rewrite fmap_cons, filter_cons_True, IH; [reflexivity|].
    apply ends_with_append. }
  apply (StronglySorted_unique_strong older).
  - intros x1 x2 H1 H2 H12 H21.
    rewrite sorted_by_mtime_perm, Hperm in H1.
    apply list_elem_of_fmap in H1 as (a & -> & Ha).
    apply list_elem_of_fmap in H2 as (b & -> & Hb).
    f_equal. exact (before_same_time calls a b Hs Ha Hb H12 H21).
  - apply sorted_by_mtime_sorted.
  - eapply StronglySorted_fmap; [|exact Hs].
    intros x y Hxy. now apply Qlt_le_weak.
  - now rewrite sorted_by_mtime_perm.
Qed.

Lemma evict_below (max_size : Z) (files : list string) (d : Disk) :
  (Z.of_nat (length files) < max_size)%Z -> Cache.evict max_size files d = d.
Proof.
  intros H. destruct files as [|p files]; [reflexivity|].
  cbn [Cache.evict].
  destruct (Z.leb_spec max_size (Z.of_nat (length (p :: files))));
    [lia|reflexivity].
Qed.

Lemma evict_full (max_size : Z) (p : string) (files : list string) (d : Disk) :
  Z.of_nat (length (p :: files)) = max_size ->
  Cache.evict max_size (p :: files) d = delete p d.
Proof.
  intros H. cbn [Cache.evict]. rewrite unlink_or_keep.
  destruct (Z.leb_spec max_size (Z.of_nat (length (p :: files)))); [|lia].
  apply evict_below. cbn [length] in H. lia.
Qed.

Lemma written_snoc (c : Cache.t) (calls : list Cache.call) (x : Cache.call) :
  Cache.key x ∉ Cache.key <$> calls ->
  resolve (Cache._get_cache_path (Cache.key x)) = Entry ->
  write (Cache._get_cache_path (Cache.key x))
    (Cache.dumped (Cache.value x) (Cache.at_time x + inject_Z (Cache.ttl c)))
    (Cache.at_time x) (list_to_map (Cache.record_of c <$> calls))
  = Return (list_to_map (Cache.record_of c <$> (calls ++ [x]))).
Proof.
  intros Hx Hname. rewrite write_entry by exact Hname. f_equal.
  rewrite fmap_app. symmetry. apply list_to_map_snoc.
  rewrite record_names. intros Hin.
  apply list_elem_of_fmap in Hin as (k & Hk & Hin).
  apply _get_cache_path_inj in Hk as <-. now apply Hx.
Qed.

Lemma written_tail (c : Cache.t) (calls : list Cache.call) (x : Cache.call) :
  NoDup (Cache.key <$> (x :: calls)) ->
  delete (Cache._get_cache_path (Cache.key x))
    (list_to_map (Cache.record_of c <$> (x :: calls)) : Disk)
  = list_to_map (Cache.record_of c <$> calls).
Proof.
  rewrite fmap_cons. intros [Hx _]%NoDup_cons.
  rewrite fmap_cons. cbn [list_to_map foldr]. apply delete_insert_id.
  apply not_elem_of_list_to_map_1. rewrite record_names. intros Hin.
  apply list_elem_of_fmap in Hin as (k & Hk & Hin).
  apply _get_cache_path_inj in Hk as <-. now apply Hx.
Qed.

(** After distinct keys were set at increasing times in an empty directory,
    the directory holds what the last [max_size] calls wrote. *)
Lemma sets_keep_latest (ls : lister) (c : Cache.t) (calls : list Cache.call) :
  (0 < Cache.max_size c)%Z ->
  Forall (fun x => resolve (Cache._get_cache_path (Cache.key x)) = Entry)
    calls ->
  NoDup (Cache.key <$> calls) -> StronglySorted Cache.before calls ->
  Cache.sets ls c calls ∅
  = list_to_map (Cache.record_of c <$>
      drop (length calls - Z.to_nat (Cache.max_size c)) calls).
Proof.
  intros Hpos. induction calls as [|x calls IH] using rev_ind;
    intros Hnames Hnd Hs.
  - reflexivity.
  - apply Forall_app in Hnames as [Hnames Hname].
    rewrite Forall_singleton in Hname.
    rewrite fmap_app in Hnd. apply NoDup_app in Hnd as (Hnd & Hfresh & _).
    apply StronglySorted_app in Hs as (Hlast & Hs & _).
    unfold Cache.sets in *. rewrite foldl_app. cbn [foldl].
    rewrite IH by assumption. clear IH.
    set (n := Z.to_nat (Cache.max_size c)) in *.
    remember (drop (length calls - n) calls) as kept eqn:Hkept.
    assert (NoDup (Cache.key <$> kept)) as Hnd'.
    { subst kept. rewrite fmap_drop.
      eapply sublist_NoDup; [exact Hnd|apply sublist_drop]. }
    assert (StronglySorted Cache.before kept) as Hs'.
    { subst kept. rewrite <- (take_drop (length calls - n) calls) in Hs.
      now apply StronglySorted_app in Hs as (_ & _ & Hs). }
    assert (Cache.key x ∉ Cache.key <$> kept) as Hx.
    { intros Hin. apply (Hfresh (Cache.key x)).
      - subst kept. rewrite fmap_drop in Hin.
        eapply elem_of_sublist; [exact Hin|]. apply sublist_drop.
      - now left. }
    unfold Cache.set. apply Z.ltb_lt in Hpos as Hb. rewrite Hb. clear Hb.
    rewrite get_cache_files_written by assumption.
    destruct (decide (length calls < n)) as [Hlt|Hge].
    + rewrite evict_below.
      2:{ rewrite !length_fmap. subst kept. rewrite length_drop. lia. }
      assert (drop (length (calls ++ [x]) - n) (calls ++ [x]) = kept ++ [x])
        as ->.
      { subst kept. rewrite length_app. cbn [length].
        replace (length calls + 1 - n) with 0 by lia.
        replace (length calls - n) with 0 by lia. now rewrite !drop_0. }
      rewrite (written_snoc c kept x Hx Hname). reflexivity.
    + assert (length kept = n) as Hlen.
      { subst kept. rewrite length_drop. lia. }
      destruct kept as [|y kept']; [simpl in Hlen; lia|].
      assert (drop (length (calls ++ [x]) - n) (calls ++ [x])
              = kept' ++ [x]) as ->.
      { rewrite length_app. cbn [length].
        replace (length calls + 1 - n) with (length calls - n + 1) by lia.
        rewrite drop_app_le by lia. f_equal.
        now rewrite <- drop_drop, <- Hkept. }
      rewrite !fmap_cons. rewrite evict_full.
      2:{ cbn [length] in *. rewrite !length_fmap. lia. }
      rewrite <- fmap_cons.
      change (Cache.record_of c y).1 with (Cache._get_cache_path (Cache.key y)).
      rewrite written_tail by assumption.
      rewrite written_snoc; [reflexivity| |exact Hname].
      intros Hin. apply Hx. rewrite fmap_cons. now right.
Qed.

Lemma sets_bound (ls : lister) (c : Cache.t) (calls : list Cache.call)
    (d : Disk) :
  (0 < Cache.max_size c)%Z -> calls <> [] ->
  (Z.of_nat (length (Cache._get_cache_files ls (Cache.sets ls c calls d)))
     <= Cache.max_size c)%Z.
Proof.
  intros Hpos Hne. destruct calls as [|x calls _] using rev_ind; [congruence|].
  unfold Cache.sets. rewrite foldl_app. cbn [foldl]. now apply set_bound.
Qed.

(** C2, amended.  With [max_size = N > 0]: after any calls of [set], at
    least one, on any directory, at most [N] cache files exist; a file that
    a [set] removes is not younger (by modification time) than any file of
    another key that it keeps; and after [N + 1] calls at increasing times
    on an empty directory, with distinct keys whose file names are names of
    entries of the directory, exactly [N] cache files exist, the file of
    the first key is absent and the files of the [N] others are there, each
    holding the value that was set, when [json.dump] writes it, with its
    expiry time. *)
Theorem max_size_bounds_the_store (ls : lister) (c : Cache.t) :
  (0 < Cache.max_size c)%Z ->
  (forall (calls : list Cache.call) (d : Disk),
      calls <> [] ->
      (Z.of_nat (length (Cache._get_cache_files ls (Cache.sets ls c calls d)))
         <= Cache.max_size c)%Z)
  /\ (forall (now : Q) (k : string) (v : value) (d : Disk) (p q : string)
        (f g : file),
        d !! p = Some f -> ends_with ".json" p = true ->
        Cache.set ls c now k v d !! p = None ->
        q <> Cache._get_cache_path k -> ends_with ".json" q = true ->
        Cache.set ls c now k v d !! q = Some g ->
        (st_mtime f <= st_mtime g)%Q)
  /\ (forall (first : Cache.call) (others : list Cache.call),
        Z.of_nat (length others) = Cache.max_size c ->
        Forall (fun x => resolve (Cache._get_cache_path (Cache.key x)) = Entry)
          (first :: others) ->
        NoDup (Cache.key <$> first :: others) ->
        StronglySorted Cache.before (first :: others) ->
        let d := Cache.sets ls c (first :: others) ∅ in
        Z.of_nat (length (Cache._get_cache_files ls d)) = Cache.max_size c
        /\ d !! Cache._get_cache_path (Cache.key first) = None
        /\ forall x : Cache.call, x ∈ others ->
             is_Some (d !! Cache._get_cache_path (Cache.key x))
             /\ forall j : json,
                  to_json (Cache.value x) = Some j ->
                  d !! Cache._get_cache_path (Cache.key x)
                  = Some (File
                            (Parsed
                               (JDict
                                  [("data", j);
                                   ("expires_at",
                                    JNum (Cache.at_time x
                                          + inject_Z (Cache.ttl c)))]))
                            (Cache.at_time x))).
Proof.
  intros Hpos. split; [|split].
  - intros calls d Hne. now apply sets_bound.
  - intros now k v d p q f g. apply set_evicts_oldest.
  - intros first others Hlen Hnames Hnd Hs d.
    assert (d = list_to_map (Cache.record_of c <$> others)) as Hd.
    { unfold d. rewrite sets_keep_latest by assumption. cbn [length].
      replace (S (length others) - Z.to_nat (Cache.max_size c)) with 1 by lia.
      reflexivity. }
    rewrite fmap_cons in Hnd. apply NoDup_cons in Hnd as [Hfirst Hnd].
    apply StronglySorted_cons in Hs as [_ Hs].
    split; [|split].
    + rewrite Hd, get_cache_files_written by assumption.
      rewrite !length_fmap. exact Hlen.
    + rewrite Hd. apply not_elem_of_list_to_map_1. rewrite record_names.
      intros Hin. apply list_elem_of_fmap in Hin as (k & Hk & Hin).
      apply _get_cache_path_inj in Hk as <-. now apply Hfirst.
    + intros x Hx.
      assert (d !! Cache._get_cache_path (Cache.key x)
              = Some (Cache.record_of c x).2) as Hrec.
      { rewrite Hd. apply elem_of_list_to_map_1.
        - now apply NoDup_record_names.
        - apply list_elem_of_fmap. exists x. split; [reflexivity|exact Hx]. }
      split; [now rewrite Hrec|].
      intros j Hj. rewrite Hrec. simpl. now rewrite (dumped_json _ j).
Qed.

Lemma max_size_bounds_the_store_witness :
  let c := Cache.Make 60 2 300 in
  let d := Cache.sets in_map_order c
             [Cache.Call 1 "key1" (VStr "value1");
              Cache.Call 2 "key2" (VStr "value2");
              Cache.Call 3 "key3" (VStr "value3")] ∅ in
  Z.of_nat (length (Cache._get_cache_files in_map_order d)) = 2%Z
  /\ d !! "key1.json" = None
  /\ d !! "key3.json"
     = Some (File (Parsed (JDict [("data", JStr "value3");
                                  ("expires_at", JNum (3 + 60))])) 3).
Proof.
  intros c d.
  assert (0 < Cache.max_size c)%Z as Hpos by (simpl; lia).
  destruct (max_size_bounds_the_store in_map_order c Hpos) as (_ & _ & H).
  destruct (H (Cache.Call 1 "key1" (VStr "value1"))
              [Cache.Call 2 "key2" (VStr "value2");
               Cache.Call 3 "key3" (VStr "value3")]) as (H1 & H2 & H3).
  - reflexivity.
  - repeat constructor.
  - compute_done.
  - repeat constructor; unfold Cache.before, Qlt; simpl; lia.
  - split; [exact H1|]. split; [exact H2|].
    apply (H3 (Cache.Call 3 "key3" (VStr "value3"))); [|reflexivity].
    apply elem_of_cons. right. apply elem_of_cons. now left.
Defined.

(** C2, as stated, fails.  With [max_size = 2], three calls of [set] with
    distinct keys that hold a path separator leave no record at all: every
    write fails, which is logged, and the most recent keys are absent like
    the first. *)
Lemma sets_of_keys_with_a_separator_store_nothing :
  let c := Cache.Make 60 2 300 in
  let d := Cache.sets in_map_order c
             [Cache.Call 1 "o/r1" (VStr "value1");
              Cache.Call 2 "o/r2" (VStr "value2");
              Cache.Call 3 "o/r3" (VStr "value3")] ∅ in
  NoDup ["o/r1"; "o/r2"; "o/r3"]
  /\ Cache._get_cache_files in_map_order d = []
  /\ d !! "o/r2.json" = None /\ d !! "o/r3.json" = None
  /\ length (Cache._get_cache_files in_map_order d) <> 2.
Proof.
  split; [compute_done|]. vm_compute. repeat split; try reflexivity.
  discriminate.
Qed.

(** ** The retry loop *)

Section RetryLoop.
Import Retry.
Context {A : Type}.
Implicit Types (fl : floats) (p : policy) (f : func A) (w : world) (e : exn).

Lemma invocations_snoc_invoked (tr : list event) :
  invocations (tr ++ [Invoked]) = S (invocations tr).
Proof. induction tr as [|[|s] tr IH]; simpl; congruence. Qed.

Lemma invocations_snoc_slept (tr : list event) (s : Q) :
  invocations (tr ++ [Slept s]) = invocations tr.
Proof. induction tr as [|[|s'] tr IH]; simpl; congruence. Qed.

Lemma sleeps_snoc_invoked (tr : list event) :
  sleeps (tr ++ [Invoked]) = sleeps tr.
Proof. unfold sleeps. rewrite omap_app. simpl. apply app_nil_r. Qed.

Lemma sleeps_snoc_slept (tr : list event) (s : Q) :
  sleeps (tr ++ [Slept s]) = sleeps tr ++ [s].
Proof. unfold sleeps. now rewrite omap_app. Qed.

Lemma invoke_eq f w :
  invoke f w =
    ((behaviour f (invocations (trace w)) (clock w)).1,
     World (behaviour f (invocations (trace w)) (clock w)).2
           (trace w ++ [Invoked])).
Proof. unfold invoke. now destruct (behaviour f _ _). Qed.

(** A sleep of a length that is not negative. *)
Lemma sleep_accepted (s : Q) w :
  (0 <= s)%Q ->
  sleep (Finite s) w = Return (World (clock w + s) (trace w ++ [Slept s])).
Proof. intros H. apply Qle_bool_iff in H. simpl. now rewrite H. Qed.

(** A sleep that returns has added its length to the trace. *)
Lemma sleep_returned (x : float) w w' :
  sleep x w = Return w' ->
  exists s : Q,
    x = Finite s /\ (0 <= s)%Q
    /\ w' = World (clock w + s) (trace w ++ [Slept s]).
Proof.
  destruct x as [s|[|]]; simpl; try discriminate.
  destruct (Qle_bool 0 s) eqn:E; [|discriminate].
  intros [= <-]. exists s. apply Qle_bool_iff in E. now repeat split.
Qed.

(** One iteration whose invocation raises a failure that the policy does
    not retry. *)
Lemma loop_not_retried fl p f (attempt : Z) (rest : list Z)
    (last : option exn) w e :
  (invoke f w).1 = Raise e -> exceptions p e = false ->
  loop fl p f (attempt :: rest) last w = (Raise e, (invoke f w).2).
Proof.
  intros Hi He. cbn [loop]. destruct (invoke f w) as [r w1]. simpl in *.
  subst r. now rewrite He.
Qed.

(** One iteration whose invocation raises a retried failure for which the
    rate-limit test of the handler raises. *)
Lemma loop_handler_raises fl p f (attempt : Z) (rest : list Z)
    (last : option exn) w e e' :
  (invoke f w).1 = Raise e -> exceptions p e = true ->
  rate_limit_reset e = Raise e' ->
  loop fl p f (attempt :: rest) last w = (Raise e', (invoke f w).2).
Proof.
  intros Hi He Hr. cbn [loop]. destruct (invoke f w) as [r w1]. simpl in *.
  subst r. now rewrite He, Hr.
Qed.


(** One iteration, not the last, whose invocation raises a retried failure
    that is not rate-limited, when the delay is a length that [time.sleep]
    accepts. *)
Lemma loop_backoff fl p f (attempt : Z) (rest : list Z) (last : option exn)
    w e (delay : Q) :
  (invoke f w).1 = Raise e -> exceptions p e = true ->
  rate_limit_reset e = Return None -> (attempt < max_retries p)%Z ->
  backoff_delay fl p attempt = Return (Finite delay) -> (0 <= delay)%Q ->
  let w1 := (invoke f w).2 in
  loop fl p f (attempt :: rest) last w =
    loop fl p f rest (Some e)
      (World (clock w1 + delay) (trace w1 ++ [Slept delay])).
Proof.
  intros Hi He Hr Hlt Hd Hpos. cbn [loop]. destruct (invoke f w) as [r w1].
  cbn [fst snd] in *. subst r. rewrite He, Hr. cbn [negb].
  apply Z.ltb_lt in Hlt. rewrite Hlt, Hd. now rewrite sleep_accepted.
Qed.

(** The same iteration when the delay cannot be computed or cannot be
    slept: what the power or [time.sleep] raises leaves the wrapper. *)
Lemma loop_backoff_raises fl p f (attempt : Z) (rest : list Z)
    (last : option exn) w e :
  (invoke f w).1 = Raise e -> exceptions p e = true ->
  rate_limit_reset e = Return None -> (attempt < max_retries p)%Z ->
  ~ sleepable fl p attempt ->
  exists e' : exn,
    loop fl p f (attempt :: rest) last w = (Raise e', (invoke f w).2)
    /\ (e' = ValueError \/ e' = OverflowError
        \/ fpow fl (exponential_base p) attempt = Raise e').
Proof.
  intros Hi He Hr Hlt Hno. cbn [loop]. destruct (invoke f w) as [r w1].
  cbn [fst snd] in *. subst r. rewrite He, Hr. cbn [negb].
  apply Z.ltb_lt in Hlt. rewrite Hlt. unfold sleepable, backoff_delay in *.
  destruct (fpow fl (exponential_base p) attempt) as [power|e'].
  2:{ exists e'. split; [reflexivity|]. now right; right. }
  destruct (float_min _ _) as [s|[|]] eqn:Hmin; simpl.
  - destruct (Qle_bool 0 s) eqn:E.
    + exfalso. apply Hno. exists s. apply Qle_bool_iff in E. now split.
    + exists ValueError. split; [reflexivity|now left].
  - exists ValueError. split; [reflexivity|now left].
  - exists OverflowError. split; [reflexivity|]. right. now left.
Qed.

(** The last iteration, when its invocation raises a retried failure that
    is not rate-limited. *)
Lemma loop_gives_up fl p f (attempt : Z) (rest : list Z) (last : option exn)
    w e :
  (invoke f w).1 = Raise e -> exceptions p e = true ->
  rate_limit_reset e = Return None -> (max_retries p <= attempt)%Z ->
  loop fl p f (attempt :: rest) last w =
    (Raise (RetryError (exceeded p f) (Some e)), (invoke f w).2).
Proof.
  intros Hi He Hr Hge. cbn [loop]. destruct (invoke f w) as [r w1].
  simpl in *. subst r. rewrite He, Hr. cbn [negb].
  apply Z.ltb_ge in Hge. now rewrite Hge.
Qed.


End RetryLoop.

Section RetryRuns.
Import Retry.
Context {A : Type}.
Implicit Types (fl : floats) (p : policy) (f : func A) (w : world) (e : exn).




(** C6.  When the first invocation raises a failure that the policy does not
    retry, the wrapper raises that same failure, having invoked the function
    once and slept never; and so it is at any later attempt at which such a
    failure is raised. *)
Theorem unmatched_failure_propagates fl p f :
  (forall (now : Q) e,
      (0 <= max_retries p)%Z ->
      (behaviour f 0 now).1 = Raise e -> exceptions p e = false ->
      wrapper fl p f now = (Raise e, World (behaviour f 0 now).2 [Invoked]))
  /\ (forall (attempt : Z) (rest : list Z) (last : option exn) w e,
        (invoke f w).1 = Raise e -> exceptions p e = false ->
        loop fl p f (attempt :: rest) last w
        = (Raise e, World (clock (invoke f w).2) (trace w ++ [Invoked]))).
Proof.
  split.
  - intros now e Hm He Hex. unfold wrapper. rewrite seqZ_cons by lia.
    rewrite (loop_not_retried fl p f _ _ _ _ e);
      [|now rewrite invoke_eq|exact Hex].
    now rewrite invoke_eq.
  - intros attempt rest last w e He Hex.
    rewrite (loop_not_retried fl p f _ _ _ _ e He Hex). now rewrite invoke_eq.
Qed.


(** A run of iterations, none of them the last, whose invocations all raise
    retried failures that are not rate-limited, with delays that can be
    slept. *)
Lemma loop_plain_prefix fl p f (k : nat) (i : Z) (rest : list Z)
    (last : option exn) w (delays : list Q) :
  (i + Z.of_nat k <= max_retries p)%Z ->
  (forall n : nat,
      invocations (trace w) <= n < invocations (trace w) + k ->
      plain_failure p f n) ->
  Forall2 (fun a s => backoff_delay fl p a = Return (Finite s) /\ (0 <= s)%Q)
    (seqZ i (Z.of_nat k)) delays ->
  exists (last' : option exn) (w' : world),
    loop fl p f (seqZ i (Z.of_nat k) ++ rest) last w = loop fl p f rest last' w'
    /\ sleeps (trace w') = sleeps (trace w) ++ delays
    /\ invocations (trace w') = invocations (trace w) + k.
Proof.
  revert i last w delays. induction k as [|k IH]; intros i last w delays Hi Hf.
  - intros ->%Forall2_nil_inv_l. exists last, w. simpl. rewrite app_nil_r.
    split; [reflexivity|]. split; [reflexivity|lia].
  - rewrite seqZ_cons by lia.
    replace (Z.pred (Z.of_nat (S k))) with (Z.of_nat k) by lia.
    intros (s & delays' & [Hd Hpos] & Hrest & ->)%Forall2_cons_inv_l.
    destruct (Hf (invocations (trace w)) ltac:(lia) (clock w))
      as (e & He & Hex & Hr).
    assert ((invoke f w).1 = Raise e) as Hinv by now rewrite invoke_eq.
    rewrite <- app_comm_cons.
    rewrite (loop_backoff fl p f i _ last w e s Hinv Hex Hr) by
      (lia || assumption).
    match goal with |- context [loop fl p f _ _ ?w2] =>
      destruct (IH (Z.succ i) (Some e) w2 delays')
        as (last' & w' & H1 & H2 & H3)
    end.
    + lia.
    + intros n Hn. apply Hf. revert Hn. rewrite invoke_eq. simpl.
      rewrite invocations_snoc_slept, invocations_snoc_invoked. lia.
    + exact Hrest.
    + exists last', w'. split; [exact H1|]. revert H2 H3.
      rewrite invoke_eq. simpl.
      rewrite invocations_snoc_slept, invocations_snoc_invoked.
      rewrite sleeps_snoc_slept, sleeps_snoc_invoked.
      intros -> ->. rewrite <- app_assoc. split; [reflexivity|lia].
Qed.

(** The sleeps of a whole run whose first [k] invocations fail plainly
    and whose next one returns or, no retry being left, fails plainly. *)
Lemma backoff_schedule fl p f (now : Q) (k : nat) (delays : list Q) :
  (Z.of_nat k <= max_retries p)%Z ->
  (forall n : nat, n < k -> plain_failure p f n) ->
  Forall2 (fun a s => backoff_delay fl p a = Return (Finite s) /\ (0 <= s)%Q)
    (seqZ 0 (Z.of_nat k)) delays ->
  (forall t : Q, returned (behaviour f k t).1 = true)
  \/ (Z.of_nat k = max_retries p /\ plain_failure p f k) ->
  sleeps (trace (wrapper fl p f now).2) = delays
  /\ invocations (trace (wrapper fl p f now).2) = S k.
Proof.
  intros Hk Hf Hd Hlast. unfold wrapper.
  replace (max_retries p + 1)%Z
    with (Z.of_nat k + (max_retries p + 1 - Z.of_nat k))%Z by lia.
  rewrite seqZ_app by lia.
  destruct (loop_plain_prefix fl p f k 0
              (seqZ (0 + Z.of_nat k) (max_retries p + 1 - Z.of_nat k))
              None (World now []) delays ltac:(lia))
    as (last' & w' & -> & H2 & H3).
  { intros n Hn. apply Hf. simpl in Hn. lia. }
  { exact Hd. }
  simpl in H2, H3. rewrite seqZ_cons by lia.
  destruct Hlast as [Hret|[Hmax Hfail]].
  - cbn [loop]. rewrite invoke_eq. rewrite H3. specialize (Hret (clock w')).
    destruct (behaviour f k (clock w')) as [[a|e] t]; [|discriminate].
    simpl. rewrite sleeps_snoc_invoked, invocations_snoc_invoked.
    split; [exact H2|lia].
  - destruct (Hfail (clock w')) as (e & He & Hex & Hr).
    rewrite (loop_gives_up fl p f _ _ _ _ e);
      [|rewrite invoke_eq; now rewrite H3|
      exact Hex|exact Hr|lia].
    rewrite invoke_eq. simpl.
    rewrite sleeps_snoc_invoked, invocations_snoc_invoked.
    split; [exact H2|lia].
Qed.

Lemma Qmin_left (x y : Q) : (x <= y)%Q -> Qmin x y = x.
Proof.
  intros H. unfold Qmin, GenericMinMax.gmin.
  destruct (x ?= y)%Q eqn:E; try reflexivity.
  apply Qgt_alt in E. exfalso. revert E. now apply Qle_not_lt.
Qed.

(** The delays of a policy with [base_delay = 1] and
    [exponential_base = 2]: powers of 2, which floats hold exactly. *)
Lemma doubling_delay fl p (i : Z) :
  base_delay p = 1%Q -> exponential_base p = 2%Q ->
  (0 <= i <= 53)%Z -> (inject_Z (2 ^ i) <= max_delay p)%Q ->
  backoff_delay fl p i = Return (Finite (inject_Z (2 ^ i))).
Proof.
  intros Hb He Hi Hm. unfold backoff_delay. rewrite Hb, He.
  change 2%Q with (inject_Z 2). change 1%Q with (inject_Z 1).
  assert (0 < 2 ^ i <= 2 ^ 53)%Z as Hpow.
  { split; [apply Z.pow_pos_nonneg; lia|apply Z.pow_le_mono_r; lia]. }
  rewrite fpow_exact by lia. rewrite fmul_exact by lia.
  rewrite Z.mul_1_l. simpl. now rewrite Qmin_left.
Qed.


End RetryRuns.



Lemma unmatched_failure_propagates_witness :
  Retry.wrapper exact_floats
    (Retry.Policy 2 (1 # 10) 60 2
       (fun e => match e with TypeError => true | _ => false end))
    (Retry.always_raises (A := nat) "test_func" ValueError) 0
  = (Raise ValueError, Retry.World 0 [Retry.Invoked]).
Proof.
  destruct (unmatched_failure_propagates (A := nat) exact_floats
    (Retry.Policy 2 (1 # 10) 60 2
       (fun e => match e with TypeError => true | _ => false end))
    (Retry.always_raises "test_func" ValueError)) as [H _].
  apply (H 0%Q ValueError).
  - simpl. lia.
  - reflexivity.
  - reflexivity.
Defined.




(** ** The key of a memoized call *)

Section Keys.
Import Memo.
Context {A : Type} `{Str A}.







End Keys.

(** ** The memoizing wrapper *)

Lemma get_absent (now : Q) (key : string) (d : Disk) :
  d !! Cache._get_cache_path key = None ->
  resolve (Cache._get_cache_path key) <> NameTooLong ->
  Cache.get now key d = (Return JNull, d).
Proof.
  intros Hd Hname. unfold Cache.get, Cache.get_among.
  now rewrite (exists_absent _ _ Hname Hd).
Qed.

(** The lookup of a key whose file name is too long. *)
Lemma get_too_long (now : Q) (key : string) (d : Disk) :
  resolve (Cache._get_cache_path key) = NameTooLong ->
  Cache.get now key d = (Raise (OSError "File name too long"), d).
Proof.
  intros Hname. unfold Cache.get, Cache.get_among.
  now rewrite (exists_too_long _ _ Hname).
Qed.


Lemma evict_lookup_None (max_size : Z) (files : list string) (d : Disk)
    (p : string) :
  d !! p = None -> Cache.evict max_size files d !! p = None.
Proof.
  revert d. induction files as [|q files IH]; intros d Hd; [exact Hd|].
  cbn [Cache.evict]. rewrite unlink_or_keep.
  destruct (_ <=? _)%Z; [|exact Hd].
  apply IH. rewrite lookup_delete_None. now right.
Qed.


(** What [get] does with the file of the key, when the name is not too
    long. *)
Lemma get_unfold (now : Q) (key : string) (d : Disk) :
  resolve (Cache._get_cache_path key) <> NameTooLong ->
  Cache.get now key d =
    match d !! Cache._get_cache_path key with
    | None => (Return JNull, d)
    | Some f =>
        match Cache.get_try id now (Cache._get_cache_path key) d with
        | (Return v, d') => (Return v, d')
        | (Raise _, d') => (Return JNull, d')
        end
    end.
Proof.
  intros Hn. destruct (d !! Cache._get_cache_path key) as [f|] eqn:Hd.
  - unfold Cache.get, Cache.get_among. now rewrite (exists_present _ _ _ Hn Hd).
  - now apply get_absent.
Qed.

(** A lookup leaves the directory as it is, or removes the file of the key,
    which held an entry that had expired. *)
Lemma get_disk (now : Q) (key : string) (d : Disk) :
  (Cache.get now key d).2 = d
  \/ ((Cache.get now key d).2 = delete (Cache._get_cache_path key) d
      /\ exists (f : file) (j x : json),
           d !! Cache._get_cache_path key = Some f
           /\ content f = Parsed j
           /\ subscript j "expires_at" = Return x
           /\ float_gt now x = Return true).
Proof.
  destruct (resolve (Cache._get_cache_path key)) eqn:Hr.
  3:{ left. now rewrite get_too_long. }
  all: rewrite get_unfold by congruence;
    destruct (d !! Cache._get_cache_path key) as [f|] eqn:Hf; [|now left];
    unfold Cache.get_try, read, unlink, id; rewrite Hf; simpl;
    (destruct (content f) as [|j] eqn:Hc; simpl; [now left|]);
    (destruct (subscript j "expires_at") as [x|] eqn:Hx; simpl; [|now left]);
    (destruct (float_gt now x) as [[|]|] eqn:Hgt; simpl; [| |now left]);
    [right; split; [reflexivity|]; now exists f, j, x
    |destruct (subscript j "data"); simpl; now left].
Qed.

(** The answer of [get] depends on the file of the key alone. *)
Lemma get_answer_lookup (now : Q) (key : string) (d d' : Disk) :
  d !! Cache._get_cache_path key = d' !! Cache._get_cache_path key ->
  (Cache.get now key d).1 = (Cache.get now key d').1.
Proof.
  intros E. destruct (resolve (Cache._get_cache_path key)) eqn:Hr.
  3:{ now rewrite !get_too_long. }
  all: rewrite !get_unfold by congruence; rewrite <- E;
    destruct (d !! Cache._get_cache_path key) as [f|] eqn:Hf; [|reflexivity];
    unfold Cache.get_try, read, unlink, id; rewrite <- E, Hf; simpl;
    (destruct (content f) as [|j]; simpl; [reflexivity|]);
    (destruct (subscript j "expires_at") as [x|]; simpl; [|reflexivity]);
    (destruct (float_gt now x) as [[|]|]; simpl; try reflexivity);
    now destruct (subscript j "data").
Qed.

(** A miss stays a miss when the lookup is made again. *)
Lemma get_miss_again (now : Q) (key : string) (d : Disk) :
  (Cache.get now key d).1 = Return JNull ->
  (Cache.get now key (Cache.get now key d).2).1 = Return JNull.
Proof.
  intros Hmiss.
  destruct (get_disk now key d) as [->|[-> _]]; [exact Hmiss|].
  rewrite get_absent; [reflexivity|apply lookup_delete_eq|].
  intros Hr. rewrite get_too_long in Hmiss by exact Hr. discriminate.
Qed.

(** What the wrapper does on a miss. *)
Lemma wrapper_miss {A : Type} `{Memo.Str A} (ls : lister) (c : Cache.t)
    (f : Memo.func A) (args : list A) (kwargs : list (string * A))
    (w : Memo.world) :
  let key := Memo.make_key (Memo.__name__ f) args kwargs in
  let looked_up := Cache.get (Memo.clock w) key (Memo.disk w) in
  looked_up.1 = Return JNull ->
  Memo.wrapper ls c f args kwargs w =
    match Memo.call f args kwargs
            (Memo.World looked_up.2 (Memo.clock w) (Memo.call_count w)) with
    | (Raise e, w2) => (Raise e, w2)
    | (Return result, w2) =>
        (Return result,
         Memo.World (Cache.set ls c (Memo.clock w2) key result (Memo.disk w2))
                    (Memo.clock w2) (Memo.call_count w2))
    end.
Proof.
  intros key looked_up Hmiss. unfold Memo.wrapper. fold key.
  subst looked_up. destruct (Cache.get _ key _) as [r d1].
  simpl in Hmiss. subst r. reflexivity.
Qed.



Section Memoize.
Import Memo.
Context {A : Type} `{Str A}.

(** C9, amended.  On a miss the wrapper calls the function.  When the call
    returns, the wrapper returns its result after [cache.set(key, result)]
    on the directory the call left; when the file name of the key is the
    name of an entry of the directory and [json.dump] writes the result as
    the document [j], the file of the key then holds
    [{"data": j, "expires_at": now + ttl}].  When the call raises, the
    wrapper raises the same exception and leaves the world as the call left
    it.  Nothing is written: if the call itself did not touch the directory,
    the directory is as the lookup left it, which is as it was, or as it was
    without the file of the key when that file held an entry that had
    expired; the key is still a miss. *)
Theorem miss_invokes_then_stores (ls : lister) (c : Cache.t) (f : func A)
    (args : list A) (kwargs : list (string * A)) (w : world) :
  let key := make_key (__name__ f) args kwargs in
  let looked_up := Cache.get (clock w) key (disk w) in
  let w1 := World looked_up.2 (clock w) (call_count w) in
  looked_up.1 = Return JNull ->
  (forall (result : value) (w2 : world),
      call f args kwargs w1 = (Return result, w2) ->
      wrapper ls c f args kwargs w
      = (Return result,
         World (Cache.set ls c (clock w2) key result (disk w2))
               (clock w2) (call_count w2))
      /\ (resolve (Cache._get_cache_path key) = Entry ->
          forall j : json,
            to_json result = Some j ->
            Cache.set ls c (clock w2) key result (disk w2)
              !! Cache._get_cache_path key
            = Some (File (Parsed (JDict
                            [("data", j);
                             ("expires_at",
                              JNum (clock w2 + inject_Z (Cache.ttl c)))]))
                         (clock w2))))
  /\ (forall (e : exn) (w2 : world),
        call f args kwargs w1 = (Raise e, w2) ->
        wrapper ls c f args kwargs w = (Raise e, w2)
        /\ (disk w2 = disk w1 ->
            (disk w2 = disk w
             \/ (disk w2 = delete (Cache._get_cache_path key) (disk w)
                 /\ exists (old : file) (entry expires_at : json),
                      disk w !! Cache._get_cache_path key = Some old
                      /\ content old = Parsed entry
                      /\ subscript entry "expires_at" = Return expires_at
                      /\ float_gt (clock w) expires_at = Return true))
            /\ (Cache.get (clock w) key (disk w2)).1 = Return JNull)).
Proof.
  intros key looked_up w1 Hmiss. split.
  - intros result w2 Hcall. split.
    + rewrite wrapper_miss by exact Hmiss. fold key looked_up w1.
      now rewrite Hcall.
    + intros Hname j Hj. rewrite lookup_set_same by exact Hname.
      now rewrite (dumped_json result j).
  - intros e w2 Hcall. split.
    + rewrite wrapper_miss by exact Hmiss. fold key looked_up w1.
      now rewrite Hcall.
    + intros ->. subst w1 looked_up. cbn [disk]. split.
      * apply get_disk.
      * now apply get_miss_again.
Qed.


End Memoize.

Lemma miss_invokes_then_stores_witness :
  let c := Cache.Make 60 2 300 in
  let w := Memo.World ∅ 0 0 in
  let f := Memo.pure (A := Memo.pyval) "f" (fun _ _ => VStr "v") 1 in
  let boom := UserException "Exception" "boom" in
  let r := Memo.wrapper in_map_order c f [Memo.PyInt 1] [] w in
  (r.1 = Return (VStr "v")
   /\ Memo.disk r.2 !! "f_1.json"
      = Some (File (Parsed (JDict [("data", JStr "v");
                                   ("expires_at", JNum (0 + 1 + 60))]))
                   (0 + 1)))
  /\ Memo.wrapper in_map_order c (Memo.failing (A := Memo.pyval) "f" boom)
       [Memo.PyInt 1] [] w
     = (Raise boom, Memo.World ∅ 0 1).
Proof.
  intros c w f boom r. split.
  - destruct (miss_invokes_then_stores in_map_order c f [Memo.PyInt 1] [] w)
      as [Hreturn _]; [reflexivity|].
    destruct (Hreturn (VStr "v") (Memo.World ∅ (0 + 1) 1)) as [Hr Hfile];
      [reflexivity|].
    split.
    + unfold r. now rewrite Hr.
    + unfold r. rewrite Hr. apply (Hfile eq_refl (JStr "v") eq_refl).
  - destruct (miss_invokes_then_stores in_map_order c
                (Memo.failing (A := Memo.pyval) "f" boom)
                [Memo.PyInt 1] [] w) as [_ Hraise]; [reflexivity|].
    apply (Hraise boom (Memo.World ∅ 0 1)). reflexivity.
Defined.

(** C9, as stated, fails.  A result is returned without being stored when
    the key has a path separator: the write of [set] fails, which is
    logged.  And a call that raises leaves the key without the record it
    had, when that record had expired: the lookup has unlinked it. *)
Lemma miss_may_store_nothing :
  let c := Cache.Make 60 2 300 in
  let boom := UserException "Exception" "boom" in
  let f := Memo.pure (A := Memo.pyval) "f" (fun _ _ => VStr "v") 0 in
  let r := Memo.wrapper in_map_order c f [Memo.PyStr "a/b"] []
             (Memo.World ∅ 0 0) in
  let d : Disk :=
    {[ "f_1.json" := File (Parsed (Cache.entry (JStr "old") 5)) 0 ]} in
  let r' := Memo.wrapper in_map_order c
              (Memo.failing (A := Memo.pyval) "f" boom) [Memo.PyInt 1] []
              (Memo.World d 10 0) in
  (r.1 = Return (VStr "v") /\ Memo.disk r.2 = ∅)
  /\ (r'.1 = Raise boom
      /\ is_Some (d !! "f_1.json") /\ Memo.disk r'.2 !! "f_1.json" = None).
Proof. vm_compute. repeat split; try reflexivity. now eexists. Qed.



(** C8.  Calls with different arguments derive the same key: ["a_b"]
    and ["a", "b"]; [1] and ["1"]; [x="1_y:2"] and [x="1", y=2].  The second
    call of such a pair is answered with the result of the first one and
    the function is not invoked. *)
Theorem make_key_collides :
  let c := Cache.Make 60 2 300 in
  let g := fun (args : list Memo.pyval) (_ : list (string * Memo.pyval)) =>
             VNum (inject_Z (Z.of_nat (length args))) in
  let f := Memo.pure "f" g 0 in
  let r1 := Memo.wrapper in_map_order c f [Memo.PyStr "a_b"] []
              (Memo.World ∅ 0 0) in
  let r2 := Memo.wrapper in_map_order c f [Memo.PyStr "a"; Memo.PyStr "b"] []
              r1.2 in
  Memo.make_key "f" [Memo.PyStr "a_b"] []
    = Memo.make_key "f" [Memo.PyStr "a"; Memo.PyStr "b"] []
  /\ Memo.make_key "f" [Memo.PyInt 1] [] = Memo.make_key "f" [Memo.PyStr "1"] []
  /\ Memo.make_key "f" [] [("x", Memo.PyStr "1_y:2")]
     = Memo.make_key "f" [] [("x", Memo.PyStr "1"); ("y", Memo.PyInt 2)]
  /\ g [Memo.PyStr "a"; Memo.PyStr "b"] [] = VNum 2
  /\ r2.1 = Return (VNum 1) /\ Memo.call_count r2.2 = 1.
Proof. vm_compute. repeat split; reflexivity. Qed.

(** ** Sweeping the directory *)

(** A loop over distinct names whose step touches the file of its name and
    no other. *)
Lemma sweep_lookup (step : string -> Disk -> Disk) (l : list (string * file))
    (d : Disk) (q : string) :
  (forall (p : string) (d' : Disk), p <> q -> step p d' !! q = d' !! q) ->
  (forall d1 d2 : Disk, d1 !! q = d2 !! q -> step q d1 !! q = step q d2 !! q) ->
  NoDup l.*1 ->
  foldl (fun d' nf => step nf.1 d') d l !! q
  = if decide (q ∈ l.*1) then step q d !! q else d !! q.
Proof.
  intros Hother Hown. revert d. induction l as [|[p f] l IH]; intros d Hnd.
  - cbn [foldl]. destruct (decide _) as [Hin|]; [|reflexivity].
    now apply elem_of_nil in Hin.
  - rewrite fmap_cons in Hnd. apply NoDup_cons in Hnd as [Hp Hnd].
    cbn [foldl fst]. rewrite IH by assumption. rewrite fmap_cons. cbn [fst].
    destruct (decide (q = p)) as [->|Hne].
    + rewrite decide_False by assumption.
      rewrite decide_True by left. reflexivity.
    + destruct (decide (q ∈ l.*1)) as [Hin|Hin].
      * rewrite decide_True by now right. apply Hown. apply Hother. congruence.
      * rewrite decide_False.
        -- apply Hother. congruence.
        -- intros [?|?]%elem_of_cons; contradiction.
Qed.

Lemma cleanup_file_lookup (now : Q) (p q : string) (d : Disk) :
  Cache.cleanup_file now p d !! q
  = if decide (q = p)
    then match d !! p with
         | Some f => if Cache.live now f then Some f else None
         | None => None
         end
    else d !! q.
Proof.
  unfold Cache.cleanup_file, Cache.cleanup_try, Cache.live, read, unlink.
  destruct (d !! p) as [f|] eqn:Hf; simpl.
  2:{ rewrite Hf. destruct (decide (q = p)) as [->|]; [exact Hf|reflexivity]. }
  destruct (json_load (content f)) as [j|]; simpl.
  2:{ rewrite Hf. destruct (decide (q = p)) as [->|];
        [apply lookup_delete_eq|now apply lookup_delete_ne]. }
  destruct (subscript j "expires_at") as [x|]; simpl.
  2:{ rewrite Hf. destruct (decide (q = p)) as [->|];
        [apply lookup_delete_eq|now apply lookup_delete_ne]. }
  destruct (float_gt now x) as [[|]|]; simpl.
  - destruct (decide (q = p)) as [->|];
      [apply lookup_delete_eq|now apply lookup_delete_ne].
  - destruct (decide (q = p)) as [->|]; [exact Hf|reflexivity].
  - rewrite Hf. destruct (decide (q = p)) as [->|];
      [apply lookup_delete_eq|now apply lookup_delete_ne].
Qed.

(** What [cleanup] leaves of a directory. *)
Lemma cleanup_lookup (ls : lister) (now_at : string -> Q) (d : Disk)
    (n : string) :
  Cache.cleanup ls now_at d !! n
  = match d !! n with
    | Some f =>
        if ends_with ".json" n && negb (Cache.live (now_at n) f)
        then None else Some f
    | None => None
    end.
Proof.
  unfold Cache.cleanup.
  rewrite (sweep_lookup (fun p d' => Cache.cleanup_file (now_at p) p d')).
  - destruct (decide (n ∈ (glob_json ls d).*1)) as [Hin|Hout].
    + apply list_elem_of_fmap in Hin as ([n' f] & -> & Hin).
      apply elem_of_glob_json in Hin as [Hf Hj]. simpl in *.
      rewrite cleanup_file_lookup, decide_True, Hf, Hj by reflexivity.
      now destruct (Cache.live _ f).
    + destruct (d !! n) as [f|] eqn:Hf; [|reflexivity].
      destruct (ends_with ".json" n) eqn:Hj; [|reflexivity].
      exfalso. apply Hout. apply list_elem_of_fmap. exists (n, f).
      split; [reflexivity|]. now apply elem_of_glob_json.
  - intros p d' Hne. rewrite cleanup_file_lookup. now rewrite decide_False.
  - intros d1 d2 H12. rewrite !cleanup_file_lookup, !decide_True by reflexivity.
    now rewrite H12.
  - apply NoDup_glob_json.
Qed.


(** A file that is not live is a miss. *)
Lemma get_not_live (now : Q) (key : string) (d : Disk) (f : file) :
  resolve (Cache._get_cache_path key) <> NameTooLong ->
  d !! Cache._get_cache_path key = Some f -> Cache.live now f = false ->
  (Cache.get now key d).1 = Return JNull.
Proof.
  intros Hn Hf. rewrite get_unfold by exact Hn. rewrite Hf.
  unfold Cache.live, Cache.get_try, read, unlink, id. rewrite Hf. simpl.
  destruct (json_load (content f)) as [j|]; [|reflexivity].
  destruct (subscript j "expires_at") as [x|]; [|reflexivity].
  destruct (float_gt now x) as [[|]|]; [reflexivity|discriminate|reflexivity].
Qed.

(** A file that is live at some time was live before. *)
Lemma live_earlier (now t : Q) (f : file) :
  (now <= t)%Q -> Cache.live t f = true -> Cache.live now f = true.
Proof.
  intros Hle. unfold Cache.live.
  destruct (json_load (content f)) as [j|]; [|discriminate].
  destruct (subscript j "expires_at") as [x|]; [|discriminate].
  assert (forall q : Q, Qle_bool t q = true -> Qle_bool now q = true) as Hq.
  { intros q Hq. apply Qle_bool_iff. apply Qle_bool_iff in Hq.
    now apply Qle_trans with t. }
  destruct x as [|b|q| | |]; simpl; try discriminate.
  - destruct (Qle_bool t _) eqn:E; [|discriminate]. now rewrite (Hq _ E).
  - destruct (Qle_bool t q) eqn:E; [|discriminate]. now rewrite (Hq _ E).
Qed.

(** The record that [set] writes is live until it expires. *)
Lemma live_entry (now : Q) (v : json) (exp mt : Q) :
  Cache.live now (File (Parsed (Cache.entry v exp)) mt) = Qle_bool now exp.
Proof. unfold Cache.live. simpl. now destruct (Qle_bool now exp). Qed.

(** X1.  [cleanup] removes the cache files that are not live when the loop
    comes to them: those that do not decode, those whose entry has no
    [expires_at] or one that is not a number, and those whose [expires_at]
    the clock has passed.  It keeps every live cache file as it is, and
    every file whose name does not end in [.json]; it creates no file. *)
Theorem cleanup_removes_what_is_not_live (ls : lister) (now_at : string -> Q)
    (d : Disk) (n : string) :
  (forall f : file,
      d !! n = Some f -> ends_with ".json" n = true ->
      Cache.live (now_at n) f = false -> Cache.cleanup ls now_at d !! n = None)
  /\ (forall f : file,
        d !! n = Some f -> Cache.live (now_at n) f = true ->
        Cache.cleanup ls now_at d !! n = Some f)
  /\ (ends_with ".json" n = false -> Cache.cleanup ls now_at d !! n = d !! n)
  /\ (d !! n = None -> Cache.cleanup ls now_at d !! n = None)
  /\ (forall (now : Q) (f : file),
        Cache.live now f = true <->
        exists (entry expires_at : json),
          content f = Parsed entry
          /\ subscript entry "expires_at" = Return expires_at
          /\ float_gt now expires_at = Return false).
Proof.
  rewrite cleanup_lookup. split; [|split; [|split; [|split]]].
  - intros f -> -> ->. reflexivity.
  - intros f -> ->. now rewrite andb_false_r.
  - intros ->. now destruct (d !! n).
  - now intros ->.
  - intros now f. unfold Cache.live. split.
    + destruct (content f) as [|entry]; simpl; [discriminate|].
      destruct (subscript entry "expires_at") as [x|] eqn:Hx; [|discriminate].
      destruct (float_gt now x) as [[|]|] eqn:Hgt; try discriminate.
      intros _. now exists entry, x.
    + intros (entry & x & -> & Hx & Hgt). simpl. now rewrite Hx, Hgt.
Qed.

(** X2.  [cleanup] does not change what a later [get] answers: what it
    removes was a miss already. *)
Theorem cleanup_keeps_answers (ls : lister) (now_at : string -> Q) (d : Disk)
    (t : Q) (k : string) :
  (now_at (Cache._get_cache_path k) <= t)%Q ->
  (Cache.get t k (Cache.cleanup ls now_at d)).1 = (Cache.get t k d).1.
Proof.
  intros Hle.
  destruct (resolve (Cache._get_cache_path k)) eqn:Hr.
  3:{ now rewrite !get_too_long. }
  all: assert (resolve (Cache._get_cache_path k) <> NameTooLong) as Hn
    by congruence; clear Hr.
  all: destruct (d !! Cache._get_cache_path k) as [f|] eqn:Hf;
    [|apply get_answer_lookup; now rewrite cleanup_lookup, Hf].
  all: destruct (Cache.live (now_at (Cache._get_cache_path k)) f) eqn:Hl;
    [apply get_answer_lookup; rewrite cleanup_lookup, Hf, Hl;
     now rewrite andb_false_r|].
  all: rewrite (get_not_live t k d f Hn Hf);
    [rewrite get_absent; [reflexivity| |exact Hn];
     rewrite cleanup_lookup, Hf, Hl, cache_path_is_json; reflexivity|].
  all: destruct (Cache.live t f) eqn:Hlt; [|reflexivity].
  all: rewrite (live_earlier _ _ _ Hle Hlt) in Hl; discriminate.
Qed.

Lemma cleanup_keeps_answers_witness :
  let d : Disk :=
    {[ "key1.json" := File (Parsed (Cache.entry (JStr "value1") 60)) 0;
       "expired.json" := File (Parsed (Cache.entry (JStr "old") (-1))) 0 ]} in
  (Cache.get 1 "key1" (Cache.cleanup in_map_order (fun _ => 1%Q) d)).1
  = Return (JStr "value1")
  /\ (Cache.get 1 "expired" (Cache.cleanup in_map_order (fun _ => 1%Q) d)).1
     = Return JNull.
Proof.
  intros d. split.
  - rewrite (cleanup_keeps_answers in_map_order (fun _ => 1%Q) d 1 "key1");
      [reflexivity|]. unfold Qle. simpl. lia.
  - rewrite (cleanup_keeps_answers in_map_order (fun _ => 1%Q) d 1 "expired");
      [reflexivity|]. unfold Qle. simpl. lia.
Defined.

(** X3.  A record that [set] wrote is still there, and still answered by
    [get], after a [cleanup] that comes to it before it expires: for a key
    whose file name is the name of an entry of the directory and a value
    that [json.dump] writes as the document [j]. *)
Theorem cleanup_keeps_live_record (ls ls' : lister) (c : Cache.t)
    (now_at : string -> Q) (t0 t : Q) (k : string) (v : value) (j : json)
    (d : Disk) :
  resolve (Cache._get_cache_path k) = Entry ->
  to_json v = Some j ->
  let expires_at := (t0 + inject_Z (Cache.ttl c))%Q in
  (now_at (Cache._get_cache_path k) <= expires_at)%Q ->
  (t <= expires_at)%Q ->
  let d' := Cache.cleanup ls' now_at (Cache.set ls c t0 k v d) in
  Cache.get t k d' = (Return j, d').
Proof.
  intros Hname Hj expires_at Hsweep Ht d'.
  assert (resolve (Cache._get_cache_path k) <> NameTooLong) as Hn
    by congruence.
  assert (d' !! Cache._get_cache_path k
          = Some (File (Parsed (Cache.entry j expires_at)) t0)) as Hd'.
  { unfold d'. rewrite cleanup_lookup, lookup_set_same by exact Hname.
    rewrite (dumped_json v j _ Hj), live_entry.
    apply Qle_bool_iff in Hsweep. fold expires_at. rewrite Hsweep.
    now rewrite andb_false_r. }
  rewrite (get_entry _ _ _ _ _ _ Hn Hd').
  apply Qle_bool_iff in Ht. now rewrite Ht.
Qed.

Lemma cleanup_keeps_live_record_witness :
  let c := Cache.Make 1 1000 300 in
  let d : Disk :=
    {[ "expired.json" := File (Parsed (Cache.entry (JStr "old") (-1))) 0 ]} in
  let d' := Cache.cleanup in_map_order (fun _ => (1 # 2)%Q)
              (Cache.set in_map_order c 0 "key1" (VStr "value1") d) in
  Cache.get (1 # 2) "key1" d' = (Return (JStr "value1"), d').
Proof.
  intros c d.
  apply (cleanup_keeps_live_record in_map_order in_map_order c
           (fun _ => (1 # 2)%Q) 0 (1 # 2) "key1" (VStr "value1")
           (JStr "value1") d).
  - reflexivity.
  - reflexivity.
  - vm_compute. discriminate.
  - vm_compute. discriminate.
Defined.

(** X4.  A [cleanup] made after another one, each file being examined no
    earlier than the first time, leaves what it would have left alone: the
    first [cleanup] removes nothing that the second would keep.  So a
    [cleanup] repeated at the same clock readings changes nothing. *)
Theorem cleanup_again (ls ls' : lister) (now_at now_at' : string -> Q)
    (d : Disk) :
  (forall n : string, (now_at n <= now_at' n)%Q) ->
  Cache.cleanup ls' now_at' (Cache.cleanup ls now_at d)
  = Cache.cleanup ls' now_at' d.
Proof.
  intros Hle. apply map_eq. intros n. rewrite !cleanup_lookup.
  destruct (d !! n) as [f|]; [|reflexivity].
  destruct (ends_with ".json" n); simpl; [|reflexivity].
  destruct (Cache.live (now_at n) f) eqn:Hl; simpl; [reflexivity|].
  destruct (Cache.live (now_at' n) f) eqn:Hl'; [|reflexivity].
  rewrite (live_earlier _ _ _ (Hle n) Hl') in Hl. discriminate.
Qed.

Lemma cleanup_again_witness :
  let d : Disk :=
    {[ "key1.json" := File (Parsed (Cache.entry (JStr "value1") 60)) 0;
       "broken.json" := File Unparsable 0 ]} in
  Cache.cleanup in_map_order (fun _ => 61%Q)
    (Cache.cleanup in_map_order (fun _ => 1%Q) d)
  = Cache.cleanup in_map_order (fun _ => 61%Q) d.
Proof.
  intros d. apply (cleanup_again in_map_order in_map_order).
  intros n. unfold Qle. simpl. lia.
Defined.



(** ** What [set] leaves of the directory *)

(** The file of the key after a [set] that finds it there. *)
Lemma lookup_set_present (ls : lister) (c : Cache.t) (now : Q) (k : string)
    (v : value) (d : Disk) (f : file) :
  d !! Cache._get_cache_path k = Some f ->
  ((0 < Cache.max_size c)%Z ->
   Cache._get_cache_path k
     ∉ take (Cache.popped (Cache.max_size c)
               (length (Cache._get_cache_files ls d)))
            (Cache._get_cache_files ls d)) ->
  Cache.set ls c now k v d !! Cache._get_cache_path k
  = Some (File (Cache.dumped v (now + inject_Z (Cache.ttl c))) now).
Proof.
  intros Hf Hkept. unfold Cache.set.
  set (d1 := if (0 <? Cache.max_size c)%Z
             then Cache.evict (Cache.max_size c)
                    (Cache._get_cache_files ls d) d
             else d).
  assert (d1 !! Cache._get_cache_path k = Some f) as Hd1.
  { unfold d1. destruct (Z.ltb_spec 0 (Cache.max_size c)) as [Hpos|_];
      [|exact Hf].
    rewrite evict_lookup by assumption.
    now rewrite decide_False by now apply Hkept. }
  unfold write. rewrite Hd1. apply lookup_insert_eq.
Qed.

(** The cache files after a [set] into a bounded store that has written the
    file of the key: this file, and the files that were not popped. *)
Lemma elem_of_files_set (ls ls' : lister) (c : Cache.t) (now : Q) (k : string)
    (v : value) (d : Disk) (p : string) :
  (0 < Cache.max_size c)%Z ->
  is_Some (Cache.set ls c now k v d !! Cache._get_cache_path k) ->
  let files := Cache._get_cache_files ls d in
  p ∈ Cache._get_cache_files ls' (Cache.set ls c now k v d) <->
  p = Cache._get_cache_path k
  \/ p ∈ drop (Cache.popped (Cache.max_size c) (length files)) files.
Proof.
  intros Hpos Hset files. rewrite elem_of_get_cache_files.
  destruct (decide (p = Cache._get_cache_path k)) as [->|Hne].
  { rewrite cache_path_is_json. split; eauto. }
  rewrite set_lookup_other by assumption.
  apply Z.ltb_lt in Hpos as ->. fold files.
  set (n := Cache.popped (Cache.max_size c) (length files)).
  pose proof (NoDup_get_cache_files ls d) as Hnd. fold files in Hnd.
  rewrite <- (take_drop n files) in Hnd.
  apply NoDup_app in Hnd as (_ & Hdisj & _).
  split.
  - intros [Hf Hj]. right. destruct (decide (p ∈ take n files)) as [|Hout].
    { now destruct Hf. }
    assert (p ∈ files) as Hp by now apply elem_of_get_cache_files.
    rewrite <- (take_drop n files) in Hp.
    apply elem_of_app in Hp as [?|?]; [contradiction|assumption].
  - intros [?|Hin]; [contradiction|].
    rewrite decide_False by (intros Hin'; exact (Hdisj p Hin' Hin)).
    apply (elem_of_get_cache_files ls). fold files.
    rewrite <- (take_drop n files). apply elem_of_app. now right.
Qed.




(** X8.  A [set] of a key that the store does not hold yet, and whose file
    name is the name of an entry of the directory, leaves exactly the file
    of the key and the cache files that were not popped: of [n] files the
    [n - max_size + 1] oldest are popped, so a store that held [max_size]
    files or more holds exactly [max_size] afterwards.  A key whose file
    name is no such name, and whose path stays in the directory, is not
    written: the files that were not popped are all that is left. *)
Theorem set_new_key_fills_to_max_size (ls ls' : lister) (c : Cache.t)
    (now : Q) (k : string) (v : value) (d : Disk) :
  (0 < Cache.max_size c)%Z ->
  d !! Cache._get_cache_path k = None ->
  let files := Cache._get_cache_files ls d in
  let kept := drop (Cache.popped (Cache.max_size c) (length files)) files in
  let files' := Cache._get_cache_files ls' (Cache.set ls c now k v d) in
  (resolve (Cache._get_cache_path k) = Entry ->
   files' ≡ₚ Cache._get_cache_path k :: kept
   /\ ((Cache.max_size c <= Z.of_nat (length files))%Z ->
       Z.of_nat (length files') = Cache.max_size c))
  /\ (resolve (Cache._get_cache_path k) <> Entry ->
      resolve (Cache._get_cache_path k) <> Outside ->
      files' ≡ₚ kept
      /\ Cache.set ls c now k v d !! Cache._get_cache_path k = None).
Proof.
  intros Hpos Hnew files kept files'.
  set (n := Cache.popped (Cache.max_size c) (length files)).
  assert (NoDup kept) as Hndk.
  { eapply sublist_NoDup; [apply (NoDup_get_cache_files ls d)|].
    apply sublist_drop. }
  assert (Cache._get_cache_path k ∉ kept) as Hk.
  { intros Hin. apply subseteq_drop, elem_of_get_cache_files in Hin
      as [[f Hf] _]. congruence. }
  split.
  - intros Hname.
    assert (files' ≡ₚ Cache._get_cache_path k :: kept) as Hperm.
    { apply NoDup_Permutation.
      - apply NoDup_get_cache_files.
      - now apply NoDup_cons.
      - intros p. rewrite elem_of_cons. apply elem_of_files_set; [exact Hpos|].
        rewrite lookup_set_same by exact Hname. eauto. }
    split; [exact Hperm|]. intros Hfull. rewrite Hperm. cbn [length].
    unfold kept. rewrite length_drop. unfold Cache.popped. lia.
  - intros Hname _.
    assert (Cache.set ls c now k v d !! Cache._get_cache_path k = None)
      as Hgone.
    { unfold Cache.set.
      set (d1 := if (0 <? Cache.max_size c)%Z
                 then Cache.evict (Cache.max_size c)
                        (Cache._get_cache_files ls d) d
                 else d).
      assert (d1 !! Cache._get_cache_path k = None) as Hd1.
      { unfold d1. destruct (0 <? Cache.max_size c)%Z; [|exact Hnew].
        now apply evict_lookup_None. }
      destruct (write_refused (Cache._get_cache_path k)
                  (Cache.dumped v (now + inject_Z (Cache.ttl c))) now d1
                  Hd1 Hname) as [e ->].
      exact Hd1. }
    split; [|exact Hgone].
    apply NoDup_Permutation; [apply NoDup_get_cache_files|exact Hndk|].
    intros p. unfold files'. rewrite elem_of_get_cache_files.
    destruct (decide (p = Cache._get_cache_path k)) as [->|Hne].
    { rewrite Hgone. split; [intros [[? [=]] _]|contradiction]. }
    rewrite set_lookup_other by assumption.
    apply Z.ltb_lt in Hpos as ->. fold files. fold n.
    pose proof (NoDup_get_cache_files ls d) as Hnd. fold files in Hnd.
    rewrite <- (take_drop n files) in Hnd.
    apply NoDup_app in Hnd as (_ & Hdisj & _).
    split.
    + intros [Hf Hj]. destruct (decide (p ∈ take n files)) as [|Hout].
      { now destruct Hf. }
      assert (p ∈ files) as Hp by now apply elem_of_get_cache_files.
      rewrite <- (take_drop n files) in Hp.
      apply elem_of_app in Hp as [?|?]; [contradiction|assumption].
    + intros Hin.
      rewrite decide_False by (intros Hin'; exact (Hdisj p Hin' Hin)).
      apply (elem_of_get_cache_files ls). fold files.
      rewrite <- (take_drop n files). apply elem_of_app. now right.
Qed.

Lemma set_new_key_fills_to_max_size_witness :
  let c := Cache.Make 60 2 300 in
  let d : Disk :=
    {[ "key1.json" := File (Parsed (Cache.entry (JStr "value1") 61)) 1;
       "key2.json" := File (Parsed (Cache.entry (JStr "value2") 62)) 2;
       "key3.json" := File (Parsed (Cache.entry (JStr "value3") 63)) 3 ]} in
  Z.of_nat (length (Cache._get_cache_files in_map_order
                      (Cache.set in_map_order c 4 "key4" (VStr "value4") d)))
  = 2%Z
  /\ Cache._get_cache_files in_map_order
       (Cache.set in_map_order c 4 "o/r" (VStr "value4") d)
     ≡ₚ ["key3.json"].
Proof.
  intros c d. split.
  - destruct (set_new_key_fills_to_max_size in_map_order in_map_order c 4
                "key4" (VStr "value4") d) as [H _].
    + simpl. lia.
    + reflexivity.
    + destruct H as [_ H]; [reflexivity|].
      apply H. vm_compute. discriminate.
  - destruct (set_new_key_fills_to_max_size in_map_order in_map_order c 4
                "o/r" (VStr "value4") d) as [_ H].
    + simpl. lia.
    + reflexivity.
    + destruct H as [H _]; [discriminate..|]. exact H.
Defined.

(** X9.  A [set] of a key that a full store holds already pops the oldest
    file all the same: when the store holds exactly [max_size] cache files
    and the key's file is one of them but not the oldest, the oldest file
    is removed and one file fewer than [max_size] is left. *)
Theorem overwrite_in_full_store_evicts (ls ls' : lister) (c : Cache.t)
    (now : Q) (k : string) (v : value) (d : Disk) (oldest : string)
    (rest : list string) :
  Cache._get_cache_files ls d = oldest :: rest ->
  Z.of_nat (length (oldest :: rest)) = Cache.max_size c ->
  Cache._get_cache_path k ∈ rest ->
  let d' := Cache.set ls c now k v d in
  d' !! oldest = None
  /\ Cache._get_cache_files ls' d' ≡ₚ rest
  /\ Z.of_nat (length (Cache._get_cache_files ls' d'))
     = (Cache.max_size c - 1)%Z.
Proof.
  intros Hfiles Hlen Hk d'.
  assert (0 < Cache.max_size c)%Z as Hpos by (cbn [length] in Hlen; lia).
  pose proof (NoDup_get_cache_files ls d) as Hnd. rewrite Hfiles in Hnd.
  apply NoDup_cons in Hnd as [Hold Hnd].
  assert (Cache.popped (Cache.max_size c) (length (oldest :: rest)) = 1)
    as Hpop by (unfold Cache.popped; lia).
  assert (is_Some (d' !! Cache._get_cache_path k)) as Hset.
  { assert (Cache._get_cache_path k ∈ Cache._get_cache_files ls d) as Hin
      by (rewrite Hfiles; now right).
    apply elem_of_get_cache_files in Hin as [[f Hf] _].
    unfold d'. rewrite (lookup_set_present ls c now k v d f Hf); [eauto|].
    intros _. rewrite Hfiles, Hpop. cbn [take].
    intros Heq%list_elem_of_singleton. rewrite <- Heq in Hold.
    contradiction. }
  assert (Cache._get_cache_files ls' d' ≡ₚ rest) as Hperm.
  { apply NoDup_Permutation; [apply NoDup_get_cache_files|exact Hnd|].
    intros p. unfold d'. rewrite elem_of_files_set by assumption.
    rewrite Hfiles, Hpop. cbn [drop]. rewrite drop_0.
    split; [intros [->|?]|]; auto. }
  split; [|split].
  - unfold d'. rewrite set_lookup_other by (intros ->; contradiction).
    apply Z.ltb_lt in Hpos as ->. rewrite Hfiles, Hpop. cbn [take].
    rewrite decide_True by left. reflexivity.
  - exact Hperm.
  - rewrite Hperm. cbn [length] in Hlen. lia.
Qed.

Lemma overwrite_in_full_store_evicts_witness :
  let c := Cache.Make 60 2 300 in
  let d : Disk :=
    {[ "key1.json" := File (Parsed (Cache.entry (JStr "value1") 61)) 1;
       "key2.json" := File (Parsed (Cache.entry (JStr "value2") 62)) 2 ]} in
  let d' := Cache.set in_map_order c 3 "key2" (VStr "again") d in
  d' !! "key1.json" = None
  /\ Z.of_nat (length (Cache._get_cache_files in_map_order d')) = 1%Z.
Proof.
  intros c d.
  destruct (overwrite_in_full_store_evicts in_map_order in_map_order c 3 "key2"
              (VStr "again") d "key1.json" ["key2.json"]) as (H1 & _ & H2).
  - vm_compute. reflexivity.
  - reflexivity.
  - apply elem_of_cons. now left.
  - split; [exact H1|exact H2].
Defined.

(** X10.  After any number of calls of [set] at increasing times on an
    empty directory, with distinct keys whose file names are names of
    entries of the directory, the store answers for the keys of the last
    [max_size] calls, each with the document [json.dump] wrote for its
    value, until it expires, and every earlier key is a miss. *)
Theorem sets_answer_for_the_latest (ls : lister) (c : Cache.t)
    (calls : list Cache.call) (t : Q) :
  (0 < Cache.max_size c)%Z ->
  Forall (fun x => resolve (Cache._get_cache_path (Cache.key x)) = Entry)
    calls ->
  NoDup (Cache.key <$> calls) -> StronglySorted Cache.before calls ->
  let d := Cache.sets ls c calls ∅ in
  let evicted := length calls - Z.to_nat (Cache.max_size c) in
  (forall (x : Cache.call) (j : json),
      x ∈ drop evicted calls ->
      to_json (Cache.value x) = Some j ->
      (t <= Cache.at_time x + inject_Z (Cache.ttl c))%Q ->
      Cache.get t (Cache.key x) d = (Return j, d))
  /\ (forall x : Cache.call,
        x ∈ take evicted calls ->
        Cache.get t (Cache.key x) d = (Return JNull, d)).
Proof.
  intros Hpos Hnames Hnd Hs d evicted.
  assert (d = list_to_map (Cache.record_of c <$> drop evicted calls)) as Hd.
  { unfold d. now apply sets_keep_latest. }
  rewrite <- (take_drop evicted calls), fmap_app in Hnd.
  apply NoDup_app in Hnd as (_ & Hdisj & Hkept).
  rewrite Forall_forall in Hnames.
  split.
  - intros x j Hx Hj Ht.
    assert (x ∈ calls) as Hin by (eapply subseteq_drop; exact Hx).
    assert (resolve (Cache._get_cache_path (Cache.key x)) <> NameTooLong)
      as Hn by (rewrite (Hnames x Hin); discriminate).
    assert (d !! Cache._get_cache_path (Cache.key x)
            = Some (Cache.record_of c x).2) as Hrec.
    { rewrite Hd. apply elem_of_list_to_map_1.
      - now apply NoDup_record_names.
      - apply list_elem_of_fmap. exists x. split; [reflexivity|exact Hx]. }
    simpl in Hrec. rewrite (dumped_json _ j _ Hj) in Hrec.
    rewrite (get_entry _ _ _ _ _ _ Hn Hrec).
    apply Qle_bool_iff in Ht. now rewrite Ht.
  - intros x Hx.
    assert (x ∈ calls) as Hin by (eapply subseteq_take; exact Hx).
    apply get_absent; [|rewrite (Hnames x Hin); discriminate].
    rewrite Hd.
    apply not_elem_of_list_to_map_1. rewrite record_names. intros Hin'.
    apply list_elem_of_fmap in Hin' as (k & Hk & Hin').
    apply _get_cache_path_inj in Hk as <-.
    apply (Hdisj (Cache.key x)); [|exact Hin'].
    apply list_elem_of_fmap. exists x. split; [reflexivity|exact Hx].
Qed.

Lemma sets_answer_for_the_latest_witness :
  let c := Cache.Make 60 2 300 in
  let d := Cache.sets in_map_order c
             [Cache.Call 1 "key1" (VStr "value1");
              Cache.Call 2 "key2" (VStr "value2");
              Cache.Call 3 "key3" (VStr "value3");
              Cache.Call 4 "key4" (VStr "value4")] ∅ in
  Cache.get 5 "key3" d = (Return (JStr "value3"), d)
  /\ Cache.get 5 "key2" d = (Return JNull, d).
Proof.
  intros c d.
  destruct (sets_answer_for_the_latest in_map_order c
              [Cache.Call 1 "key1" (VStr "value1");
               Cache.Call 2 "key2" (VStr "value2");
               Cache.Call 3 "key3" (VStr "value3");
               Cache.Call 4 "key4" (VStr "value4")] 5) as [Hkept Hgone].
  - simpl. lia.
  - repeat constructor.
  - compute_done.
  - repeat constructor; unfold Cache.before, Qlt; simpl; lia.
  - split.
    + apply (Hkept (Cache.Call 3 "key3" (VStr "value3")) (JStr "value3")).
      * simpl. apply elem_of_cons. now left.
      * reflexivity.
      * vm_compute. discriminate.
    + apply (Hgone (Cache.Call 2 "key2" (VStr "value2"))).
      simpl. apply elem_of_cons. right. apply elem_of_cons. now left.
Defined.



(** ** Runs of the retry loop *)

Section RetryBounds.
Import Retry.
Context {A : Type}.
Implicit Types (fl : floats) (p : policy) (f : func A) (w : world) (e : exn).




(** The invocations and the sleeps that a run of the loop adds. *)
Lemma loop_adds fl p f (attempts : list Z) (last : option exn) w :
  let w' := (loop fl p f attempts last w).2 in
  exists i s : nat,
    invocations (trace w') = invocations (trace w) + i
    /\ length (sleeps (trace w')) = length (sleeps (trace w)) + s
    /\ s <= i <= length attempts.
Proof.
  revert last w. induction attempts as [|a rest IH]; intros last w.
  - exists 0, 0. simpl. lia.
  - assert (exists i s : nat,
              invocations (trace w ++ [Invoked]) = invocations (trace w) + i
              /\ length (sleeps (trace w ++ [Invoked]))
                 = length (sleeps (trace w)) + s
              /\ s <= i <= length (a :: rest)) as Hstop.
    { exists 1, 0. rewrite invocations_snoc_invoked, sleeps_snoc_invoked.
      cbn [length]. lia. }
    assert (forall (e : exn) (x : Q) (t : Q),
              let w2 := World (t + x) ((trace w ++ [Invoked]) ++ [Slept x]) in
              exists i s : nat,
                invocations (trace (loop fl p f rest (Some e) w2).2)
                = invocations (trace w) + i
                /\ length (sleeps (trace (loop fl p f rest (Some e) w2).2))
                   = length (sleeps (trace w)) + s
                /\ s <= i <= length (a :: rest)) as Hgo.
    { intros e x t w2. destruct (IH (Some e) w2) as (i & s & H1 & H2 & H3).
      exists (S i), (S s). rewrite H1, H2. unfold w2. cbn [trace length].
      rewrite invocations_snoc_slept, invocations_snoc_invoked.
      rewrite sleeps_snoc_slept, sleeps_snoc_invoked, length_app. simpl.
      lia. }
    cbn [loop]. rewrite invoke_eq.
    destruct (behaviour f _ _) as [[x|e] t]; cbn [fst snd]; [exact Hstop|].
    destruct (exceptions p e); cbn [negb]; [|exact Hstop].
    destruct (rate_limit_reset e) as [[reset|]|e']; [| |exact Hstop].
    + rewrite sleep_accepted by apply Q.le_max_r. apply Hgo.
    + destruct (a <? max_retries p)%Z; [|exact Hstop].
      destruct (backoff_delay fl p a) as [delay|e']; [|exact Hstop].
      match goal with |- context [sleep delay ?w1] =>
        destruct (sleep delay w1) as [w2|e'] eqn:Hs
      end; [|exact Hstop].
      apply sleep_returned in Hs as (s & _ & _ & ->). apply Hgo.
Qed.

(** X13.  Whatever the function does, the wrapper invokes it at most
    [max_retries + 1] times and sleeps at most once per invocation; with a
    negative [max_retries] it does not invoke it at all and raises
    [RetryError] without a cause. *)
Theorem at_most_max_retries_plus_one_invocations fl p f (now : Q) :
  let w := (wrapper fl p f now).2 in
  (Z.of_nat (invocations (trace w)) <= Z.max 0 (max_retries p + 1))%Z
  /\ length (sleeps (trace w)) <= invocations (trace w)
  /\ ((max_retries p < 0)%Z ->
      wrapper fl p f now
      = (Raise (RetryError (exceeded p f) None), World now [])).
Proof.
  intros w. unfold w, wrapper.
  destruct (loop_adds fl p f (seqZ 0 (max_retries p + 1)) None (World now []))
    as (i & s & H1 & H2 & H3).
  rewrite H1, H2. rewrite length_seqZ in H3. simpl.
  split; [lia|]. split; [lia|].
  intros Hneg. now rewrite seqZ_nil by lia.
Qed.

(** A backoff delay that is slept is at most [max_delay]. *)
Lemma slept_delay_capped fl p (attempt : Z) (x : float) w w' :
  backoff_delay fl p attempt = Return x -> sleep x w = Return w' ->
  exists s : Q,
    (s <= max_delay p)%Q /\ w' = World (clock w + s) (trace w ++ [Slept s]).
Proof.
  intros Hd Hs. apply sleep_returned in Hs as (s & -> & _ & ->).
  exists s. split; [|reflexivity].
  unfold backoff_delay in Hd.
  destruct (fpow fl (exponential_base p) attempt) as [power|]; [|discriminate].
  injection Hd as Hd. unfold float_min in Hd.
  destruct (fmul fl (base_delay p) power) as [q|[|]]; try discriminate;
    injection Hd as <-; [apply Q.le_min_r|apply Qle_refl].
Qed.

(** The sleeps that a run of the loop adds when no failure is
    rate-limited: at most one per attempt below [max_retries], none longer
    than [max_delay]. *)
Lemma loop_backoff_sleeps fl p f (attempts : list Z) (last : option exn) w :
  (forall (n : nat) (t : Q) e (reset : Z),
      (behaviour f n t).1 = Raise e ->
      rate_limit_reset e <> Return (Some reset)) ->
  exists added : list Q,
    sleeps (trace (loop fl p f attempts last w).2) = sleeps (trace w) ++ added
    /\ Forall (fun s => (s <= max_delay p)%Q) added
    /\ length added
       <= length (filter (fun a => (a < max_retries p)%Z) attempts).
Proof.
  intros Hplain. revert last w.
  induction attempts as [|a rest IH]; intros last w.
  - exists []. simpl. rewrite app_nil_r. split; [reflexivity|]. split; auto.
  - assert (exists added : list Q,
              sleeps (trace w ++ [Invoked]) = sleeps (trace w) ++ added
              /\ Forall (fun s => (s <= max_delay p)%Q) added
              /\ length added
                 <= length (filter (fun a => (a < max_retries p)%Z)
                              (a :: rest))) as Hstop.
    { exists []. rewrite sleeps_snoc_invoked, app_nil_r.
      split; [reflexivity|]. split; [constructor|simpl; lia]. }
    cbn [loop]. rewrite invoke_eq.
    destruct (behaviour f _ _) as [[x|e] t] eqn:Hb; cbn [fst snd];
      [exact Hstop|].
    destruct (exceptions p e); cbn [negb]; [|exact Hstop].
    destruct (rate_limit_reset e) as [[reset|]|e'] eqn:Hr; [| |exact Hstop].
    { exfalso. apply (Hplain (invocations (trace w)) (clock w) e reset).
      - now rewrite Hb.
      - exact Hr. }
    destruct (Z.ltb_spec a (max_retries p)) as [Hlt|Hge]; [|exact Hstop].
    destruct (backoff_delay fl p a) as [delay|e'] eqn:Hd; [|exact Hstop].
    match goal with |- context [sleep delay ?w1] =>
      destruct (sleep delay w1) as [w2|e'] eqn:Hs
    end; [|exact Hstop].
    destruct (slept_delay_capped fl p a delay _ _ Hd Hs) as (s & Hcap & ->).
    match goal with |- context [loop fl p f rest _ ?w2] =>
      destruct (IH (Some e) w2) as (added & -> & Hall & Hlen)
    end.
    exists (s :: added). cbn [trace].
    rewrite sleeps_snoc_slept, sleeps_snoc_invoked, <- app_assoc.
    split; [reflexivity|]. split; [now constructor|].
    rewrite filter_cons_True by assumption. cbn [length]. lia.
Qed.

(** X14.  When no failure is rate-limited, whatever else the function
    does, the wrapper sleeps at most [max_retries] times and never longer
    than [max_delay] at a time. *)
Theorem backoff_sleeps_are_capped fl p f (now : Q) :
  (forall (n : nat) (t : Q) e (reset : Z),
      (behaviour f n t).1 = Raise e ->
      rate_limit_reset e <> Return (Some reset)) ->
  let slept := sleeps (trace (wrapper fl p f now).2) in
  Forall (fun s => (s <= max_delay p)%Q) slept
  /\ (Z.of_nat (length slept) <= Z.max 0 (max_retries p))%Z.
Proof.
  intros Hplain slept. unfold slept, wrapper.
  destruct (loop_backoff_sleeps fl p f (seqZ 0 (max_retries p + 1)) None
              (World now []) Hplain) as (added & -> & Hall & Hlen).
  simpl. split; [exact Hall|].
  assert (filter (fun a => (a < max_retries p)%Z) (seqZ 0 (max_retries p + 1))
          `sublist_of` seqZ 0 (max_retries p)) as Hf.
  { destruct (Z.le_gt_cases 0 (max_retries p)) as [Hm|Hm].
    - rewrite seqZ_app by lia. rewrite filter_app.
      change (seqZ (0 + max_retries p) 1) with [max_retries p].
      rewrite filter_cons_False, filter_nil, app_nil_r by lia.
      apply sublist_filter.
    - rewrite (seqZ_nil 0 (max_retries p + 1)) by lia. apply sublist_nil_l. }
  apply sublist_length in Hf. rewrite length_seqZ in Hf. lia.
Qed.






End RetryBounds.


Lemma backoff_sleeps_are_capped_witness :
  let p := Retry.Policy 3 1 3 2 (fun _ => true) in
  let f := Retry.always_raises (A := nat) "test_func"
             (UserException "Exception" "failed") in
  Forall (fun s => (s <= 3)%Q)
    (Retry.sleeps (Retry.trace (Retry.wrapper exact_floats p f 0).2))
  /\ (Z.of_nat (length (Retry.sleeps
                          (Retry.trace (Retry.wrapper exact_floats p f 0).2)))
      <= 3)%Z.
Proof.
  intros p f. apply (backoff_sleeps_are_capped exact_floats p f 0).
  intros n t e reset [= <-]. discriminate.
Defined.



(** ** The cached and retried functions of github.py *)

(** The delays of the policy of github.py. *)
Lemma github_delays (fl : floats) :
  Retry.backoff_delay fl Github.policy 0 = Return (Finite 1)
  /\ Retry.backoff_delay fl Github.policy 1 = Return (Finite 2)
  /\ Retry.backoff_delay fl Github.policy 2 = Return (Finite 4).
Proof.
  split; [|split].
  - apply (doubling_delay fl Github.policy 0); try reflexivity; [lia|].
    vm_compute. discriminate.
  - apply (doubling_delay fl Github.policy 1); try reflexivity; [lia|].
    vm_compute. discriminate.
  - apply (doubling_delay fl Github.policy 2); try reflexivity; [lia|].
    vm_compute. discriminate.
Qed.



Section Fetch.
Import Github.
Context {A : Type} `{Memo.Str A}.
Implicit Types (fl : floats) (ls : lister) (cache : Cache.t) (name : string)
  (body : list A -> list (string * A) -> nat -> Q -> outcome value * Q)
  (args : list A) (w : Memo.world).

(** A call that misses runs the retry loop on the function. *)
Lemma fetch_miss fl ls cache name body args w :
  let key := Memo.make_key name args [] in
  (Cache.get (Memo.clock w) key (Memo.disk w)).1 = Return JNull ->
  let d1 := (Cache.get (Memo.clock w) key (Memo.disk w)).2 in
  let r := Retry.wrapper fl policy (Retry.Func name (body args []))
             (Memo.clock w) in
  let count := Memo.call_count w + Retry.invocations (Retry.trace r.2) in
  fetch fl ls cache name body args w
  = match r.1 with
    | Return result =>
        (Return result,
         Memo.World (Cache.set ls cache (Retry.clock r.2) key result d1)
           (Retry.clock r.2) count)
    | Raise e => (Raise e, Memo.World d1 (Retry.clock r.2) count)
    end.
Proof.
  intros key Hmiss d1 r count. unfold fetch.
  rewrite wrapper_miss by exact Hmiss.
  cbn [Memo.__name__ Memo.call retried Memo.clock Memo.disk Memo.call_count].
  fold key. fold d1. fold r. fold count. now destruct r.1.
Qed.



(** X19.  A failure of another class than [GithubException] is neither
    retried nor cached: a call that misses the cache raises it after one
    invocation and writes nothing. *)
Theorem fetch_other_failure_propagates fl ls cache name body args w e :
  let key := Memo.make_key name args [] in
  (Cache.get (Memo.clock w) key (Memo.disk w)).1 = Return JNull ->
  (body args [] 0 (Memo.clock w)).1 = Raise e ->
  is_GithubException e = false ->
  fetch fl ls cache name body args w
  = (Raise e,
     Memo.World (Cache.get (Memo.clock w) key (Memo.disk w)).2
       (body args [] 0 (Memo.clock w)).2 (Memo.call_count w + 1)).
Proof.
  intros key Hmiss He Hex. rewrite fetch_miss by exact Hmiss. fold key.
  unfold Retry.wrapper. change (seqZ 0 _) with [0%Z; 1%Z; 2%Z; 3%Z].
  rewrite (loop_not_retried _ _ _ _ _ _ _ e);
    [|now rewrite invoke_eq|exact Hex].
  rewrite invoke_eq. reflexivity.
Qed.


End Fetch.

(** X20.  With the arguments that github.py gives to [retry_with_backoff],
    a run whose failures are [GithubException]s that are not rate-limited
    sleeps 1, 2 and 4 seconds between its attempts: [k] such failures,
    followed by a return or, when [k = 3], by a last failure, make for the
    first [k] of these sleeps and [k + 1] invocations. *)
Theorem github_backoff_is_1_2_4 {A : Type} (fl : floats) (f : Retry.func A)
    (now : Q) (k : nat) :
  k <= 3 ->
  (forall n : nat, n < k -> Retry.plain_failure Github.policy f n) ->
  (forall t : Q, returned (Retry.behaviour f k t).1 = true)
  \/ (k = 3 /\ Retry.plain_failure Github.policy f k) ->
  Retry.sleeps (Retry.trace (Retry.wrapper fl Github.policy f now).2)
  = take k [1%Q; 2%Q; 4%Q]
  /\ Retry.invocations (Retry.trace (Retry.wrapper fl Github.policy f now).2)
     = S k.
Proof.
  intros Hk Hfail Hlast.
  apply (backoff_schedule fl Github.policy f now k (take k [1%Q; 2%Q; 4%Q])).
  - simpl. lia.
  - exact Hfail.
  - destruct (github_delays fl) as (H0 & H1 & H2).
    assert (forall s : Q, (0 <= s)%Q <-> Qle_bool 0 s = true) as Hle
      by (intros s; symmetry; apply Qle_bool_iff).
    destruct k as [|[|[|[|k]]]]; [| | | |lia]; cbn [take];
      repeat (constructor; [split; [assumption|now apply Hle]|]);
      constructor.
  - destruct Hlast as [Hret|[-> Hlast]]; [now left|right]. now split.
Qed.



Lemma fetch_other_failure_propagates_witness :
  let c := Cache.Make 3600 1000 300 in
  let body := fun (_ : list Github.arg) (_ : list (string * Github.arg))
                  (_ : nat) (t : Q) =>
    (Raise (A := value) (KeyError "repository"), t) in
  let args := [Github.Client "<github.MainClass.Github object at 0x7f3a5c0d>";
               Github.PrContext "octocat/hello-world" 7 "main" "feature"] in
  Github.fetch exact_floats in_map_order c "get_changed_files" body args
    (Memo.World ∅ 0 0)
  = (Raise (KeyError "repository"), Memo.World ∅ 0 1).
Proof.
  intros c body args.
  rewrite (fetch_other_failure_propagates exact_floats in_map_order c
             "get_changed_files" body args (Memo.World ∅ 0 0)
             (KeyError "repository")); reflexivity.
Defined.


Lemma github_backoff_is_1_2_4_witness :
  let f := Retry.always_raises (A := value) "post_comment"
             (GithubException 500 (Some ∅)) in
  Retry.sleeps (Retry.trace (Retry.wrapper exact_floats Github.policy f 0).2)
  = [1%Q; 2%Q; 4%Q]
  /\ Retry.invocations
       (Retry.trace (Retry.wrapper exact_floats Github.policy f 0).2) = 4.
Proof.
  intros f. apply (github_backoff_is_1_2_4 exact_floats f 0 3).
  - lia.
  - intros n _ t. eexists. repeat split; reflexivity.
  - right. split; [reflexivity|]. intros t. eexists. repeat split; reflexivity.
Defined.

(** ** More on the memoizing wrapper *)

Section MemoizeMore.
Import Memo.
Context {A : Type} `{Str A}.

(** The first call of a memoized pure function, when it misses. *)
Lemma wrapper_pure_miss (ls : lister) (c : Cache.t) (name : string)
    (g : list A -> list (string * A) -> value) (elapsed : Q)
    (args : list A) (kwargs : list (string * A)) (w : world) :
  let key := make_key name args kwargs in
  (Cache.get (clock w) key (disk w)).1 = Return JNull ->
  wrapper ls c (pure name g elapsed) args kwargs w
  = (Return (g args kwargs),
     World (Cache.set ls c (clock w + elapsed) key (g args kwargs)
              (Cache.get (clock w) key (disk w)).2)
           (clock w + elapsed) (S (call_count w))).
Proof. intros key Hmiss. now rewrite wrapper_miss by exact Hmiss. Qed.

(** X21.  A memoized result is computed again once its record has
    expired.  For a key whose file name is the name of an entry of the
    directory and a result that [json.dump] writes as [j]: after a call
    that missed, a call with the same arguments made more than [ttl] seconds
    after the result was stored invokes the function again and stores the
    result anew, with a new expiry time. *)
Theorem expired_result_is_computed_again (ls : lister) (c : Cache.t)
    (name : string) (g : list A -> list (string * A) -> value) (elapsed : Q)
    (args : list A) (kwargs : list (string * A)) (w : world) (t2 : Q)
    (j : json) :
  let f := pure name g elapsed in
  let key := make_key name args kwargs in
  resolve (Cache._get_cache_path key) = Entry ->
  to_json (g args kwargs) = Some j ->
  (Cache.get (clock w) key (disk w)).1 = Return JNull ->
  let r1 := wrapper ls c f args kwargs w in
  (clock r1.2 + inject_Z (Cache.ttl c) < t2)%Q ->
  let r2 := wrapper ls c f args kwargs
              (World (disk r1.2) t2 (call_count r1.2)) in
  r2.1 = Return (g args kwargs)
  /\ call_count r2.2 = S (S (call_count w))
  /\ disk r2.2 !! Cache._get_cache_path key
     = Some (File (Parsed (JDict
                     [("data", j);
                      ("expires_at",
                       JNum (t2 + elapsed + inject_Z (Cache.ttl c)))]))
                  (t2 + elapsed)).
Proof.
  intros f key Hname Hj Hmiss r1. unfold r1, f.
  assert (resolve (Cache._get_cache_path key) <> NameTooLong) as Hn
    by congruence.
  rewrite wrapper_pure_miss by exact Hmiss. fold key.
  cbn [fst snd disk clock call_count]. intros Ht2.
  rewrite wrapper_pure_miss; fold key; cbn [disk clock call_count].
  - cbn [fst snd disk clock call_count].
    split; [reflexivity|]. split; [reflexivity|].
    rewrite lookup_set_same by exact Hname. now rewrite (dumped_json _ j).
  - erewrite get_entry; [|exact Hn|].
    2:{ rewrite lookup_set_same by exact Hname.
        now rewrite (dumped_json _ j _ Hj). }
    apply Qle_bool_false in Ht2. now rewrite Ht2.
Qed.


End MemoizeMore.

Lemma expired_result_is_computed_again_witness :
  let c := Cache.Make 60 2 300 in
  let g := fun (args : list Memo.pyval) (_ : list (string * Memo.pyval)) =>
             VNum (inject_Z (Z.of_nat (length args))) in
  let f := Memo.pure "test_function" g 0 in
  let r1 := Memo.wrapper in_map_order c f [Memo.PyInt 1; Memo.PyInt 2] []
              (Memo.World ∅ 0 0) in
  let r2 := Memo.wrapper in_map_order c f [Memo.PyInt 1; Memo.PyInt 2] []
              (Memo.World (Memo.disk r1.2) 61 (Memo.call_count r1.2)) in
  r2.1 = Return (VNum 2) /\ Memo.call_count r2.2 = 2.
Proof.
  intros c g f r1 r2.
  destruct (expired_result_is_computed_again in_map_order c "test_function" g 0
              [Memo.PyInt 1; Memo.PyInt 2] [] (Memo.World ∅ 0 0) 61 (JNum 2))
    as (H1 & H2 & _).
  - reflexivity.
  - reflexivity.
  - reflexivity.
  - vm_compute. reflexivity.
  - split; [exact H1|exact H2].
Defined.


(** ** The list of the cache files *)

(** X23.  [_get_cache_files] lists every cache file of the directory, and
    nothing else, once each, the oldest first: a file is not younger than
    any file that comes after it in the list. *)
Theorem cache_files_oldest_first (ls : lister) (d : Disk) :
  let files := Cache._get_cache_files ls d in
  NoDup files
  /\ (forall n : string,
        n ∈ files <-> is_Some (d !! n) /\ ends_with ".json" n = true)
  /\ (forall (l1 l2 : list string) (p q : string) (f g : file),
        files = l1 ++ p :: l2 -> q ∈ l2 ->
        d !! p = Some f -> d !! q = Some g ->
        (st_mtime f <= st_mtime g)%Q).
Proof.
  intros files. split; [apply NoDup_get_cache_files|].
  split; [intros n; apply elem_of_get_cache_files|].
  intros l1 l2 p q f g Hfiles Hq Hf Hg.
  unfold files, Cache._get_cache_files in Hfiles.
  apply fmap_app_inv in Hfiles as (S1 & S2' & -> & HS2 & HS).
  symmetry in HS2. apply fmap_cons_inv in HS2 as ([p' f'] & S2 & Hp & -> & ->).
  simpl in Hp. subst p'.
  pose proof (sorted_by_mtime_sorted (glob_json ls d)) as Hsorted.
  rewrite HS in Hsorted.
  apply StronglySorted_app in Hsorted as (_ & _ & Hsorted).
  apply StronglySorted_cons in Hsorted as [Hall _].
  apply list_elem_of_fmap in Hq as ([q' g'] & -> & Hq).
  rewrite Forall_forall in Hall. specialize (Hall _ Hq). unfold older in Hall.
  simpl in *.
  assert (forall (n : string) (h : file),
            (n, h) ∈ S1 ++ (p, f') :: S2 -> d !! n = Some h) as Hfile.
  { intros n h Hin. rewrite <- HS, sorted_by_mtime_perm in Hin.
    now apply elem_of_glob_json in Hin as [Hin _]. }
  assert (f' = f) as <-.
  { assert (d !! p = Some f') as E; [|congruence].
    apply Hfile, elem_of_app. right. now left. }
  assert (g' = g) as <-.
  { assert (d !! q' = Some g') as E; [|congruence].
    apply Hfile, elem_of_app. right. now right. }
  exact Hall.
Qed.

(** ** The delays of the backoff, and the failures of a memoized call *)

(** X24.  With a delay and a cap that are not negative and a base of 1 or
    more, a backoff delay, when the power does not overflow, is never
    negative and never above [max_delay], and the delays never decrease
    from one attempt to the next. *)
Theorem backoff_delays_do_not_decrease (fl : floats) (p : Retry.policy)
    (i : Z) :
  (0 <= Retry.base_delay p)%Q -> (0 <= Retry.max_delay p)%Q ->
  (1 <= Retry.exponential_base p)%Q ->
  ((exists power : Q, fpow fl (Retry.exponential_base p) i = Return power) <->
   exists x : float, Retry.backoff_delay fl p i = Return x)
  /\ forall x : float,
       Retry.backoff_delay fl p i = Return x ->
       float_le (Finite 0) x
       /\ float_le x (Finite (Retry.max_delay p))
       /\ forall y : float,
            Retry.backoff_delay fl p (i + 1) = Return y -> float_le x y.
Proof.
  intros Hb Hm He. unfold Retry.backoff_delay. split.
  { split; intros [a Ha].
    - rewrite Ha. now eexists.
    - destruct (fpow fl _ i) as [power|]; [now exists power|discriminate]. }
  intros x Hx.
  destruct (fpow fl (Retry.exponential_base p) i) as [power|] eqn:Hp;
    [|discriminate].
  injection Hx as <-.
  assert (0 <= Retry.exponential_base p)%Q as He0 by lra.
  assert (0 <= power)%Q as Hpower by exact (fpow_sign fl _ _ _ He0 Hp).
  pose proof (fmul_sign fl _ _ Hb Hpower) as Hmul.
  split; [|split].
  - destruct (fmul fl (Retry.base_delay p) power) as [q|[|]]; simpl in *;
      [now apply Q.min_glb|contradiction|exact Hm].
  - destruct (fmul fl (Retry.base_delay p) power) as [q|[|]]; simpl in *;
      [apply Q.le_min_r|contradiction|apply Qle_refl].
  - intros y Hy.
    destruct (fpow fl (Retry.exponential_base p) (i + 1)) as [power'|] eqn:Hp';
      [|discriminate].
    injection Hy as <-.
    assert (power <= power')%Q as Hstep.
    { apply (fpow_mono fl _ i (i + 1) _ _ He); [lia|exact Hp|exact Hp']. }
    pose proof (fmul_mono fl _ _ _ Hb Hstep) as Hmono.
    destruct (fmul fl (Retry.base_delay p) power) as [q|[|]],
             (fmul fl (Retry.base_delay p) power') as [q'|[|]];
      simpl in *; try contradiction; try exact I.
    + now apply Q.min_le_compat_r.
    + apply Q.le_min_r.
    + apply Qle_refl.
Qed.

Lemma backoff_delays_do_not_decrease_witness :
  let p := Github.policy in
  float_le (Finite 4) (Finite 8) /\ float_le (Finite 30) (Finite 30).
Proof.
  intros p.
  destruct (backoff_delays_do_not_decrease exact_floats p 2) as [_ H];
    [vm_compute; discriminate..|].
  destruct (H (Finite 4) eq_refl) as (_ & _ & H2).
  destruct (backoff_delays_do_not_decrease exact_floats p 5) as [_ H'];
    [vm_compute; discriminate..|].
  destruct (H' (Finite 30) eq_refl) as (_ & H5 & _).
  split; [exact (H2 (Finite 8) eq_refl)|exact H5].
Defined.



(** ** What the handler of the retry loop raises *)

(** X27.  The handler of the retry loop reads the reset time of a
    [GithubException] whose status is 403 before anything else: when the
    exception has no headers it raises [AttributeError], and when the
    [X-RateLimit-Reset] header is not the text of an integer it raises
    [ValueError].  The wrapper then raises this exception after the one
    invocation, without sleeping, whatever [max_retries] allows. *)
Theorem handler_raises_on_malformed_headers {A : Type} (fl : floats)
    (p : Retry.policy) (f : Retry.func A) (now : Q)
    (headers : option (gmap string header)) :
  (0 <= Retry.max_retries p)%Z ->
  (Retry.behaviour f 0 now).1 = Raise (GithubException 403 headers) ->
  Retry.exceptions p (GithubException 403 headers) = true ->
  (forall h : gmap string header,
      headers = Some h -> h !! "X-RateLimit-Reset" = Some NoInt) ->
  Retry.wrapper fl p f now
  = (Raise (match headers with
            | Some _ => ValueError
            | None => AttributeError
            end),
     Retry.World (Retry.behaviour f 0 now).2 [Retry.Invoked]).
Proof.
  intros Hmax He Hex Hbad. unfold Retry.wrapper.
  rewrite seqZ_cons by lia.
  rewrite (loop_handler_raises fl p f 0 _ None _
             (GithubException 403 headers)
             (match headers with
              | Some _ => ValueError
              | None => AttributeError
              end));
    [|now rewrite invoke_eq|exact Hex|].
  - now rewrite invoke_eq.
  - destruct headers as [h|]; [|reflexivity].
    simpl. now rewrite (Hbad h eq_refl).
Qed.

Lemma handler_raises_on_malformed_headers_witness :
  let f := Retry.always_raises (A := value) "get_changed_files"
             (GithubException 403 None) in
  let g := Retry.always_raises (A := value) "get_changed_files"
             (GithubException 403
                (Some {["X-RateLimit-Reset" := NoInt]})) in
  Retry.wrapper exact_floats Github.policy f 0
  = (Raise AttributeError, Retry.World 0 [Retry.Invoked])
  /\ Retry.wrapper exact_floats Github.policy g 0
     = (Raise ValueError, Retry.World 0 [Retry.Invoked]).
Proof.
  intros f g. split.
  - apply (handler_raises_on_malformed_headers exact_floats Github.policy f 0
             None); [simpl; lia|reflexivity|reflexivity|discriminate].
  - apply (handler_raises_on_malformed_headers exact_floats Github.policy g 0
             (Some {["X-RateLimit-Reset" := NoInt]}));
      [simpl; lia|reflexivity|reflexivity|].
    intros h [= <-]. reflexivity.
Defined.

(** ** Values that [json.dump] rejects *)

(** X28.  [set] of a value that [json.dump] rejects, under a key whose
    file name is the name of an entry of the directory, leaves a file that
    holds no JSON document: [open] has created it and the [TypeError] of
    [json.dump] is logged.  A [get] of the key is then a miss that leaves
    the file where it is, at any time, and a [cleanup] removes it. *)
Theorem rejected_value_leaves_a_broken_file (ls ls' : lister) (c : Cache.t)
    (now later : Q) (now_at : string -> Q) (k : string) (v : value)
    (d : Disk) :
  resolve (Cache._get_cache_path k) = Entry ->
  to_json v = None ->
  let d1 := Cache.set ls c now k v d in
  d1 !! Cache._get_cache_path k = Some (File Unparsable now)
  /\ Cache.get later k d1 = (Return JNull, d1)
  /\ Cache.cleanup ls' now_at d1 !! Cache._get_cache_path k = None.
Proof.
  intros Hname Hv d1.
  assert (d1 !! Cache._get_cache_path k = Some (File Unparsable now)) as Hd1.
  { unfold d1. rewrite lookup_set_same by exact Hname.
    unfold Cache.dumped. now rewrite Hv. }
  split; [exact Hd1|]. split.
  - rewrite get_unfold by congruence. rewrite Hd1.
    unfold Cache.get_try, read. now rewrite Hd1.
  - rewrite cleanup_lookup, Hd1, cache_path_is_json. reflexivity.
Qed.

Lemma rejected_value_leaves_a_broken_file_witness :
  let c := Cache.Make 60 2 300 in
  let d1 := Cache.set in_map_order c 0 "k" (VObject "<object object>") ∅ in
  d1 !! "k.json" = Some (File Unparsable 0)
  /\ Cache.get 1 "k" d1 = (Return JNull, d1).
Proof.
  intros c d1.
  destruct (rejected_value_leaves_a_broken_file in_map_order in_map_order c 0 1
              (fun _ => 1%Q) "k" (VObject "<object object>") ∅)
    as (H1 & H2 & _); [reflexivity..|].
  split; [exact H1|exact H2].
Defined.
